(** * plaintext.daily Telegram agent: a shallow embedding of [plaintext_daily_bot.py]

    The development follows the Python module top to bottom:

    - [Py]: the fragment of the Python runtime the bot relies on (exception
      classes, [str] helpers, IEEE-754 binary64 arithmetic behind [int * float],
      [int / int] and [int(float)]);
    - [JSON]: decoded JSON documents and Python's subscript operator on them;
    - [PIL]: Pillow images as heap objects, with the drawing, resizing and
      compositing geometry written out and the pixel kernels left abstract;
    - [Bot]: the module itself ([openai_chat], [openai_image],
      [add_logo_or_mark] and the command handlers), written in a
      state-and-exception monad over a store of image objects.

    Strings are byte strings: a Python [str] is represented by its UTF-8
    encoding, so that the two dashes of [VOICE] occupy three bytes each. *)

From Stdlib Require Import ZArith Floats.SpecFloat.
From stdpp Require Import base option list strings gmap.

Local Open Scope Z_scope.

(* ===================================================================== *)
(** * The Python runtime *)
(* ===================================================================== *)

Module Py.

(** Exception classes raised by the interpreter and the libraries the bot
    calls.  Every one of them derives from [Exception], which is what an
    [except Exception:] clause catches. *)
Inductive exn : Type :=
  | URLError                       (* urllib.error.URLError *)
  | HTTPError (status : Z)         (* urllib.error.HTTPError, a non-2xx reply *)
  | TimeoutError                   (* socket.timeout *)
  | RequestException               (* requests.exceptions.RequestException *)
  | UnicodeDecodeError
  | JSONDecodeError                (* json.JSONDecodeError *)
  | KeyError (key : string)
  | IndexError
  | TypeError
  | AttributeError
  | binascii_Error                 (* binascii.Error *)
  | UnidentifiedImageError         (* PIL.UnidentifiedImageError *)
  | ValueError
  | ZeroDivisionError
  | OverflowError
  | OSError.

(** A computation either raises ([inl]) or returns ([inr]). *)
Definition result (A : Type) : Type := exn + A.

Definition raise {A : Type} (e : exn) : result A := inl e.

#[global] Instance result_ret : MRet result := fun A x => inr x.
#[global] Instance result_bind : MBind result :=
  fun A B f r => match r with inl e => inl e | inr x => f x end.

Definition of_option {A : Type} (e : exn) (o : option A) : result A :=
  match o with Some x => inr x | None => inl e end.

(** ** [str] *)

Definition bytes : Type := string.

(** The line feed of ["\n"]. *)
Definition LF : string := String (Ascii.ascii_of_nat 10) EmptyString.

(** [sep.join(parts)] *)
Fixpoint str_join (sep : string) (parts : list string) : string :=
  match parts with
  | [] => EmptyString
  | [p] => p
  | p :: ps => p +:+ sep +:+ str_join sep ps
  end.

(** Truthiness of a [str]: only the empty string is falsy. *)
Definition str_bool (s : string) : bool :=
  match s with EmptyString => false | String _ _ => true end.

(** [a or b] on strings. *)
Definition str_or (a b : string) : string := if str_bool a then a else b.

(** [s.startswith(p)] *)
Fixpoint startswith (p s : string) : bool :=
  match p, s with
  | EmptyString, _ => true
  | String a p', String b s' => if Ascii.eqb a b then startswith p' s' else false
  | String _ _, EmptyString => false
  end.

(** [sub in s] *)
Fixpoint str_in (sub s : string) : bool :=
  startswith sub s ||
  match s with
  | EmptyString => false
  | String _ s' => str_in sub s'
  end.

(** Code points for which [str.isspace] holds, as UTF-8 byte sequences. *)
Definition whitespace : list (list Z) :=
  [ [9]; [10]; [11]; [12]; [13]; [28]; [29]; [30]; [31]; [32];
    [194; 133]; [194; 160]; [225; 154; 128];
    [226; 128; 128]; [226; 128; 129]; [226; 128; 130]; [226; 128; 131];
    [226; 128; 132]; [226; 128; 133]; [226; 128; 134]; [226; 128; 135];
    [226; 128; 136]; [226; 128; 137]; [226; 128; 138];
    [226; 128; 168]; [226; 128; 169]; [226; 128; 175];
    [226; 129; 159]; [227; 128; 128] ].

Definition byte_codes (s : string) : list Z :=
  (fun a => Z.of_nat (Ascii.nat_of_ascii a)) <$> String.list_ascii_of_string s.

Definition of_byte_codes (l : list Z) : string :=
  String.string_of_list_ascii ((fun z => Ascii.ascii_of_nat (Z.to_nat z)) <$> l).

Fixpoint codes_prefix (p l : list Z) : bool :=
  match p, l with
  | [], _ => true
  | a :: p', b :: l' => (a =? b) && codes_prefix p' l'
  | _ :: _, [] => false
  end.

(** Number of bytes of the white-space code point [l] starts with, if any. *)
Definition leading_space (ws : list (list Z)) (l : list Z) : option nat :=
  length <$> List.find (fun w => codes_prefix w l) ws.

Fixpoint lstrip_codes (fuel : nat) (ws : list (list Z)) (l : list Z) : list Z :=
  match fuel with
  | O => l
  | S fuel' =>
      match leading_space ws l with
      | Some k => lstrip_codes fuel' ws (drop k l)
      | None => l
      end
  end.

(** [s.strip()]: white space is removed from both ends.  The right end is
    treated by reversing the bytes (and the byte sequences looked for). *)
Definition strip (s : string) : string :=
  let l := byte_codes s in
  let l1 := lstrip_codes (length l) whitespace l in
  let l2 := lstrip_codes (length l1) (reverse <$> whitespace) (reverse l1) in
  of_byte_codes (reverse l2).

(** [s.isascii()]: every byte is below 128. *)
Definition isascii (s : string) : bool :=
  forallb (fun c => c <? 128) (byte_codes s).

(** [s.capitalize()] on ASCII text, the header names of the module: the
    first letter in upper case, the others in lower case; bytes that are
    not ASCII letters are kept. *)
Definition upper_code (c : Z) : Z := if (97 <=? c) && (c <=? 122) then c - 32 else c.
Definition lower_code (c : Z) : Z := if (65 <=? c) && (c <=? 90) then c + 32 else c.

Definition capitalize (s : string) : string :=
  match byte_codes s with
  | [] => EmptyString
  | c :: rest => of_byte_codes (upper_code c :: (lower_code <$> rest))
  end.

(** ** [float]: IEEE-754 binary64 *)

Definition prec : Z := 53.
Definition emax : Z := 1024.

Definition float : Type := spec_float.

(** [float(n)] for an [int]; round-to-nearest-even, [OverflowError] beyond
    the binary64 range. *)
Definition float_of_int (n : Z) : result float :=
  match binary_normalize prec emax n 0 false with
  | S754_infinity _ | S754_nan => raise OverflowError
  | x => inr x
  end.

Definition fmul (x y : float) : float := SFmul prec emax x y.
Definition fsub (x y : float) : float := SFsub prec emax x y.
Definition fdiv (x y : float) : float := SFdiv prec emax x y.

(** A decimal literal [p/q] denotes the binary64 number nearest to it, which
    is also what the correctly rounded division of [p] by [q] yields. *)
Definition literal (p q : Z) : float :=
  fdiv (binary_normalize prec emax p 0 false) (binary_normalize prec emax q 0 false).

(** [n * x] with [n : int] and [x : float]. *)
Definition int_mul_float (n : Z) (x : float) : result float :=
  fn ← float_of_int n; mret (fmul fn x).

(** [n - x] with [n : int] and [x : float]. *)
Definition int_sub_float (n : Z) (x : float) : result float :=
  fn ← float_of_int n; mret (fsub fn x).

(** [a / b] on [int]s (true division). *)
Definition int_truediv (a b : Z) : result float :=
  if b =? 0 then raise ZeroDivisionError
  else fa ← float_of_int a; fb ← float_of_int b; mret (fdiv fa fb).

(** [int(x)]: truncation towards zero; infinities and NaN are refused. *)
Definition int_of_float (x : float) : result Z :=
  match x with
  | S754_zero _ => inr 0
  | S754_finite s m e =>
      let a := match e with
               | Zneg p => Z.shiftr (Zpos m) (Zpos p)
               | _ => Z.shiftl (Zpos m) e
               end in
      inr (if s then - a else a)
  | S754_infinity _ => raise OverflowError
  | S754_nan => raise ValueError
  end.

End Py.
Export Py.

(* ===================================================================== *)
(** * Decoded JSON documents *)
(* ===================================================================== *)

Module JSON.

(** What [json.loads] returns: [None], [bool], [int], [float], [str],
    [list] and [dict] (with [str] keys, kept in document order). *)
#[warnings="-register-all"]
Inductive json : Type :=
  | JNull
  | JBool (b : bool)
  | JInt (n : Z)
  | JFloat (x : float)
  | JStr (s : string)
  | JArr (items : list json)
  | JObj (members : list (string * json)).

Fixpoint assoc (k : string) (members : list (string * json)) : option json :=
  match members with
  | [] => None
  | (k', v) :: rest => if String.eqb k k' then Some v else assoc k rest
  end.

(** [v[k]] for a [str] key: only a [dict] can be subscripted this way. *)
Definition getitem_str (v : json) (k : string) : result json :=
  match v with
  | JObj members => of_option (KeyError k) (assoc k members)
  | _ => raise TypeError
  end.

(** The bytes of the first code point of a UTF-8 string: a leading byte and
    the continuation bytes (of the form 10xxxxxx) after it. *)
Fixpoint continuation (s : string) : string :=
  match s with
  | String c s' =>
      if (128 <=? Z.of_nat (Ascii.nat_of_ascii c)) && (Z.of_nat (Ascii.nat_of_ascii c) <? 192)
      then String c (continuation s') else EmptyString
  | EmptyString => EmptyString
  end.

(** [v[0]]: the first item of a [list], the first character of a [str]; a
    [dict] has no key [0]; the other values cannot be subscripted. *)
Definition getitem_0 (v : json) : result json :=
  match v with
  | JArr items => of_option IndexError (head items)
  | JStr EmptyString => raise IndexError
  | JStr (String c s) => inr (JStr (String c (continuation s)))
  | JObj _ => raise (KeyError "0")
  | _ => raise TypeError
  end.

(** [v.strip()]: only a [str] has the method. *)
Definition call_strip (v : json) : result string :=
  match v with
  | JStr s => inr (strip s)
  | _ => raise AttributeError
  end.

End JSON.
Export JSON.

(* ===================================================================== *)
(** * Pillow *)
(* ===================================================================== *)

Module PIL.

Inductive mode : Type :=
  | M_1 | M_L | M_LA | M_P | M_RGB | M_RGBA | M_CMYK | M_YCbCr | M_I | M_F.

#[global] Instance mode_eq_dec : EqDecision mode.
Proof. solve_decision. Defined.

(** A pixel holds up to four 8-bit bands. *)
Record pixel : Type := Pixel { band0 : Z; band1 : Z; band2 : Z; band3 : Z }.

(** The raster buffer, addressed by column and row. *)
Definition raster : Type := Z → Z → pixel.

Record image : Type := Image {
  im_mode : mode;
  width : Z;
  height : Z;
  px : raster
}.

(** Image dimensions are C [int]s in the imaging core. *)
Definition wf_image (im : image) : Prop :=
  0 ≤ width im < 2 ^ 31 ∧ 0 ≤ height im < 2 ^ 31.

(** [(x0, y0, x1, y1)] *)
Definition box : Type := Z * Z * Z * Z.

(** The handle returned by [ImageFont.load_default()]. *)
Inductive font : Type := DefaultFont.

(** The parts of Pillow that are not modelled further: the pixel kernels of
    the C core, the codecs and the colour parser, together with the points
    on which releases of the library differ. *)
Record engine : Type := Engine {
  (** [Image.open(io.BytesIO(b))], decoded; [None] when the payload is not
      an image *)
  decode : bytes → option image;
  (** for a payload that does not decode: [Image.open] recognises the file
      format and returns a lazy image, and the pixel data turn out to be
      truncated or broken when they are first loaded *)
  truncated : bytes → bool;
  (** the PNG encoder behind [Image.save] *)
  encode_png : image → bytes;
  (** band conversion of [Image.convert] *)
  convert_px : mode → mode → pixel → pixel;
  (** the resampling filter of [Image.resize] *)
  resample : image → Z → Z → raster;
  (** Porter-Duff "over" of a source pixel on a destination pixel *)
  blend : pixel → pixel → pixel;
  (** the ellipse rasteriser: is the pixel inside the ellipse inscribed in
      the box? *)
  covers : box → Z → Z → bool;
  (** [ImageColor.getrgb]; [None] for an unknown colour specifier *)
  getrgb : string → option pixel;
  (** [ImageFont.load_default()] *)
  load_default : result font;
  (** [ImageDraw.textsize]; the method was removed in Pillow 10 *)
  textsize : option (font → string → Z * Z);
  (** the text renderer of [ImageDraw.text]; [None] when it rejects its
      arguments *)
  render_text : raster → float * float → string → pixel → font → option raster;
  (** releases before 9.3 refuse a negative [dest] in [alpha_composite] *)
  dest_must_be_nonnegative : bool;
  (** releases from 9.5 on refuse a box with [x1 < x0] or [y1 < y0] *)
  box_must_be_ordered : bool
}.

Section ops.
Context (E : engine).

(** [im.convert(m)] *)
Definition convert (m : mode) (im : image) : image :=
  {| im_mode := m; width := width im; height := height im;
     px := fun x y => convert_px E (im_mode im) m (px im x y) |}.

(** [Image.open(io.BytesIO(b))] together with the loading of the pixel
    data, which the source triggers at once by [convert].  Data in no known
    format are refused by [Image.open] with [UnidentifiedImageError]; data
    in a known format that cannot be loaded fail in [convert] with
    [OSError]. *)
Definition open (b : bytes) : result image :=
  match decode E b with
  | Some im => inr im
  | None => raise (if truncated E b then OSError else UnidentifiedImageError)
  end.

(** [im.resize((w, h))]: the core refuses empty targets. *)
Definition resize (im : image) (size : Z * Z) : result image :=
  let '(w, h) := size in
  if (w <? 1) || (h <? 1) then raise ValueError
  else inr {| im_mode := im_mode im; width := w; height := h;
              px := resample E im w h |}.

(** The raster left by compositing [overlay] over [im] with its top-left
    corner at [dest]. *)
Definition composited (im overlay : image) (dest : Z * Z) : raster :=
  fun x y =>
    let '(dx, dy) := dest in
    if (dx <=? x) && (x <? dx + width overlay) && (dy <=? y) && (y <? dy + height overlay)
    then blend E (px im x y) (px overlay (x - dx) (y - dy))
    else px im x y.

(** The pure part of [im.alpha_composite(overlay, dest)]: the argument
    checks of the method and the mode check of the core. *)
Definition alpha_composite_image (im overlay : image) (dest : Z * Z) : result image :=
  if dest_must_be_nonnegative E && (Z.min (fst dest) (snd dest) <? 0) then raise ValueError
  else if bool_decide (im_mode im = M_RGBA) && bool_decide (im_mode overlay = M_RGBA)
  then inr {| im_mode := im_mode im; width := width im; height := height im;
              px := composited im overlay dest |}
  else raise ValueError.

(** The raster left by filling the ellipse inscribed in [b] with [ink]. *)
Definition filled_ellipse (im : image) (b : box) (ink : pixel) : image :=
  {| im_mode := im_mode im; width := width im; height := height im;
     px := fun x y => if covers E b x y then ink else px im x y |}.

(** The pure part of [draw.ellipse(b, fill=colour)]. *)
Definition ellipse_image (im : image) (b : box) (colour : string) : result image :=
  let '(x0, y0, x1, y1) := b in
  ink ← of_option ValueError (getrgb E colour);
  if box_must_be_ordered E && ((x1 <? x0) || (y1 <? y0)) then raise ValueError
  else mret (filled_ellipse im b ink).

(** The pure part of [draw.text(xy, text, fill=colour, font=f)]. *)
Definition text_image (im : image) (xy : float * float) (text : string)
    (colour : string) (f : font) : result image :=
  ink ← of_option ValueError (getrgb E colour);
  r ← of_option TypeError (render_text E (px im) xy text ink f);
  mret {| im_mode := im_mode im; width := width im; height := height im; px := r |}.

(** Modes the PNG plugin can write. *)
Definition png_writable (m : mode) : bool :=
  match m with
  | M_1 | M_L | M_LA | M_P | M_RGB | M_RGBA | M_I => true
  | M_CMYK | M_YCbCr | M_F => false
  end.

(** The pure part of [im.save(buf, format="PNG")]: the bytes written. *)
Definition save_png (im : image) : result bytes :=
  if png_writable (im_mode im) then inr (encode_png E im) else raise OSError.

End ops.

End PIL.
Export PIL.


(* ===================================================================== *)
(** * The bot *)
(* ===================================================================== *)

Module Bot.

(** ** Environment *)

(** The module-level settings read from the process environment at import. *)
Record Config : Type := {
  TG_TOKEN : option string;
  OPENAI_API_KEY : option string;
  BRAND_PRIMARY : string;
  BRAND_CREAM : string;
  LOGO_URL : string
}.

(** [os.getenv(key, default)] *)
Definition getenv_default (env : string → option string) (key default : string) : string :=
  match env key with Some v => v | None => default end.

Definition load_config (env : string → option string) : Config :=
  {| TG_TOKEN := env "TELEGRAM_BOT_TOKEN";
     OPENAI_API_KEY := env "OPENAI_API_KEY";
     BRAND_PRIMARY := getenv_default env "BRAND_PRIMARY" "#2F3435";
     BRAND_CREAM := getenv_default env "BRAND_CREAM" "#F4EFE2";
     LOGO_URL := strip (getenv_default env "LOGO_URL" "") |}.

(** [f"{v}"] for a value that is a [str] or [None]. *)
Definition format_optional (v : option string) : string :=
  match v with Some s => s | None => "None" end.

(** A [urllib.request.Request] object; the body is kept as the document
    that [json.dumps] serialises and [req_headers] is its [headers]
    dictionary, in insertion order.  What urllib adds when the request is
    sent (Content-length, Host, User-agent) is not part of the object. *)
Record request : Type := Request {
  req_url : string;
  req_data : json;
  req_headers : list (string * string)
}.

(** [headers[k] = v] on the dictionary of a request. *)
Fixpoint set_header (k v : string) (headers : list (string * string)) :
    list (string * string) :=
  match headers with
  | [] => [(k, v)]
  | (k', v') :: rest =>
      if String.eqb k k' then (k, v) :: rest else (k', v') :: set_header k v rest
  end.

(** [req.add_header(k, v)]: the name is stored capitalised. *)
Definition add_header (req : request) (k v : string) : request :=
  {| req_url := req_url req; req_data := req_data req;
     req_headers := set_header (capitalize k) v (req_headers req) |}.

(** [urllib.request.Request(url=url, data=data, headers=headers)]: every
    entry of [headers] goes through [add_header]. *)
Definition urllib_Request (url : string) (data : json) (headers : list (string * string)) :
    request :=
  fold_left (fun req kv => add_header req kv.1 kv.2) headers
    {| req_url := url; req_data := data; req_headers := [] |}.

(** How [urllib.request.urlopen] fails. *)
Inductive transport_error : Type :=
  | Unreachable
  | TimedOut
  | BadStatus (status : Z).

Definition transport_exn (t : transport_error) : exn :=
  match t with
  | Unreachable => URLError
  | TimedOut => TimeoutError
  | BadStatus status => HTTPError status
  end.

(** The codecs of the standard library, not modelled further. *)
Record Codecs : Type := {
  (** [b.decode("utf-8")] *)
  utf8_decode : bytes → option string;
  (** [json.loads] *)
  json_loads : string → option json;
  (** [base64.b64decode] on ASCII text *)
  b64decode : string → option bytes
}.

(** The network: what the remote services answer. *)
Record World : Type := {
  (** [urllib.request.urlopen(req, timeout=t)] followed by [resp.read()] *)
  urlopen : request → Z → transport_error + bytes;
  (** [requests.get(url, timeout=t).content] *)
  requests_get : string → Z → option bytes
}.

(** ** Store and effects *)

(** Identity of an image object. *)
Definition loc : Type := positive.

(** What a handler hands to Telegram through [update.message]. *)
Inductive reply : Type :=
  | Text (text : string)                      (* reply_text(text) *)
  | Photo (photo : bytes) (caption : string). (* reply_photo(photo=, caption=) *)

Record state : Type := State {
  heap : gmap loc image;
  outbox : list reply
}.

(** Computations read and update the store and may raise; the store as it is
    when an exception is raised is kept. *)
Definition M (A : Type) : Type := state → result A * state.

#[global] Instance M_ret : MRet M := fun A x s => (inr x, s).
#[global] Instance M_bind : MBind M :=
  fun A B f m s =>
    match m s with
    | (inr x, s') => f x s'
    | (inl e, s') => (inl e, s')
    end.

Definition lift {A : Type} (r : result A) : M A := fun s => (r, s).

(** [try: body / except Exception: handler] *)
Definition try_except {A : Type} (body handler : M A) : M A :=
  fun s =>
    match body s with
    | (inl _, s') => handler s'
    | (inr x, s') => (inr x, s')
    end.

(** A new image object. *)
Definition new (im : image) : M loc :=
  fun s =>
    let l := fresh (dom (heap s)) in
    (inr l, {| heap := <[l := im]> (heap s); outbox := outbox s |}).

(** The image an object currently holds. *)
Definition get (l : loc) : M image :=
  fun s => (of_option AttributeError (heap s !! l), s).

(** In-place update of an image object. *)
Definition set (l : loc) (im : image) : M unit :=
  fun s => (inr (), {| heap := <[l := im]> (heap s); outbox := outbox s |}).

Definition update (l : loc) (f : image → result image) : M unit :=
  im ← get l; im' ← lift (f im); set l im'.

Definition reply_text (text : string) : M unit :=
  fun s => (inr (), {| heap := heap s; outbox := outbox s ++ [Text text] |}).

Definition reply_photo (photo : bytes) (caption : string) : M unit :=
  fun s => (inr (), {| heap := heap s; outbox := outbox s ++ [Photo photo caption] |}).

(** [ImageDraw.Draw(img)]: the context draws into the buffer of [img]. *)
Record draw : Type := Draw { target : loc }.

(** ** Brand helpers *)

Definition VOICE : string :=
  "You are the voice of 'plaintext.daily' — internet field notes, practical > perfect. " +:+
  "Tone: minimal, direct, calm, anti-hype. One idea per post. Keep 12–18 words if possible.".

Definition HASHTAGS : string :=
  "#plaintextdaily #internetfieldnotes #practicaloverperfect #makerhabits #shipdaily #minimaldesign".

Definition STYLE_PROMPT : string :=
  "Minimal, type-forward square card. Warm cream background (#F4EFE2), charcoal text (#2F3435). " +:+
  "Use whitespace, subtle grain, tiny geometric accent (dot or line). Optional small 'pd' roundel bottom-right. " +:+
  "No photos, no gradients.".

(** ** The local variables of the handlers *)

(** [idea]: [prompt] *)
Definition idea_prompt : string :=
  VOICE +:+ " Generate 3 distinct post ideas for today. " +:+
  "Format each as: " +:+ LF +:+ "- Hook: <7-10 words>" +:+ LF +:+ "  Angle: <one line>.".

(** [caption]: [topic] and [prompt] *)
Definition caption_topic (args : list string) : string :=
  str_or (str_join " " args) "a tiny workflow habit that compounds".

Definition caption_prompt (topic : string) : string :=
  VOICE +:+ " Write one Instagram caption about: " +:+ topic +:+ ". " +:+
  "1-2 short sentences. End with: 'practical > perfect'. No emojis.".

(** [post]: [topic], [cap_prompt] and [img_prompt] *)
Definition post_topic (args : list string) : string :=
  str_or (str_join " " args) "one simple framework to ship daily".

Definition post_cap_prompt (topic : string) : string :=
  VOICE +:+ " Write 1–2 short sentences for Instagram about: " +:+ topic +:+ ". " +:+
  "Make it crisp, zero fluff. End with 'practical > perfect'.".

Definition post_img_prompt (topic : string) : string :=
  STYLE_PROMPT +:+ " Content text theme: " +:+ topic +:+ ". Render as a clean poster (no photo).".

(** [style]: [spec] *)
Definition style_spec (cfg : Config) : string :=
  "Brand quick-specs" +:+ LF +:+
  "Primary: " +:+ BRAND_PRIMARY cfg +:+ LF +:+ "Cream: " +:+ BRAND_CREAM cfg +:+ LF +:+
  "Type vibe: monospaced, generous tracking, lowercase" +:+ LF +:+
  "Imagery: minimal cards, whitespace, subtle grain, small 'pd' roundel" +:+ LF +:+
  "Hashtags: " +:+ HASHTAGS.

Section handlers.
Context (cfg : Config) (C : Codecs) (W : World) (E : engine).

(** The [headers] argument of both OpenAI requests. *)
Definition openai_headers : list (string * string) :=
  [ ("Authorization", "Bearer " +:+ format_optional (OPENAI_API_KEY cfg));
    ("Content-Type", "application/json") ].

(** [with urlopen(req, timeout=t) as resp: out = json.loads(resp.read().decode("utf-8"))] *)
Definition fetch_json (req : request) (timeout : Z) : result json :=
  body ← match urlopen W req timeout with
         | inl t => raise (transport_exn t)
         | inr body => inr body
         end;
  text ← of_option UnicodeDecodeError (utf8_decode C body);
  of_option JSONDecodeError (json_loads C text).

(** ** OpenAI lightweight client *)

(** The request [openai_chat] builds. *)
Definition chat_request (prompt : string) (model : string) : request :=
  urllib_Request "https://api.openai.com/v1/chat/completions"
    (JObj [ ("model", JStr model);
            ("messages", JArr [ JObj [ ("role", JStr "user");
                                       ("content", JStr prompt) ] ]);
            ("temperature", JFloat (literal 7 10)) ])
    openai_headers.

(** [out["choices"][0]["message"]["content"].strip()] *)
Definition chat_content (out : json) : result string :=
  choices ← getitem_str out "choices";
  choice ← getitem_0 choices;
  message ← getitem_str choice "message";
  content ← getitem_str message "content";
  call_strip content.

Definition openai_chat (prompt : string) (model : string) : result string :=
  let req := chat_request prompt model in
  out ← fetch_json req 60;
  chat_content out.

(** The default of the [model] parameter. *)
Definition default_model : string := "gpt-4o-mini".

(** [base64.b64decode(v)]: a [str] is first encoded as ASCII ([ValueError]
    when it has other characters) and then decoded ([binascii.Error] when
    it is not base64); a value that is not a [str] is refused. *)
Definition b64decode_value (v : json) : result bytes :=
  match v with
  | JStr s =>
      if isascii s then of_option binascii_Error (b64decode C s)
      else raise ValueError
  | _ => raise TypeError
  end.

(** The request [openai_image] builds. *)
Definition image_request (prompt : string) (size : string) : request :=
  urllib_Request "https://api.openai.com/v1/images/generations"
    (JObj [ ("model", JStr "gpt-image-1");
            ("prompt", JStr prompt);
            ("size", JStr size) ])
    openai_headers.

(** [out["data"][0]["b64_json"]] *)
Definition image_b64 (out : json) : result json :=
  data ← getitem_str out "data";
  first ← getitem_0 data;
  getitem_str first "b64_json".

(** The part of [openai_image] before the image object is created:
    [Image.open(io.BytesIO(base64.b64decode(b64))).convert("RGBA")] on the
    reply to the request. *)
Definition generated_image (prompt : string) (size : string) : result image :=
  let req := image_request prompt size in
  out ← fetch_json req 120;
  b64 ← image_b64 out;
  payload ← b64decode_value b64;
  im ← open E payload;
  mret (convert E M_RGBA im).

Definition openai_image (prompt : string) (size : string) : M loc :=
  im ← lift (generated_image prompt size);
  new im.

(** The default of the [size] parameter. *)
Definition default_size : string := "1024x1024".

(** ** Brand mark *)

(** [img.copy()] *)
Definition Image_copy (img : loc) : M loc :=
  im ← get img; new im.

(** [img.alpha_composite(overlay, dest)], in place. *)
Definition alpha_composite (img : loc) (overlay : image) (dest : Z * Z) : M unit :=
  update img (fun im => alpha_composite_image E im overlay dest).

(** [draw.ellipse(b, fill=colour)] *)
Definition ellipse (d : draw) (b : box) (colour : string) : M unit :=
  update (target d) (fun im => ellipse_image E im b colour).

(** [draw.textsize(text, font=f)] *)
Definition draw_textsize (d : draw) (text : string) (f : font) : M (Z * Z) :=
  match textsize E with
  | Some measure => mret (measure f text)
  | None => lift (raise AttributeError)
  end.

(** [draw.text(xy, text, fill=colour, font=f)] *)
Definition draw_text (d : draw) (xy : float * float) (text : string)
    (colour : string) (f : font) : M unit :=
  update (target d) (fun im => text_image E im xy text colour f).

(** [int(n * c)] for an [int] [n] and a [float] literal [c]. *)
Definition int_scaled (n : Z) (c : float) : result Z :=
  x ← int_mul_float n c; int_of_float x.

(** The [try] block of the logo branch.  It either returns the image (the
    [return img] inside the block, here [Some]) or raises; the [except
    Exception: pass] around it is applied in [add_logo_or_mark].  The logo is
    never shared nor updated in place and is kept as a value; [img.width] and
    [img.height] do not change and are read once. *)
Definition paste_logo (img : loc) : M (option loc) :=
  content ← lift (of_option RequestException (requests_get W (LOGO_URL cfg) 10));
  opened ← lift (open E content);
  let logo := convert E M_RGBA opened in
  base ← get img;
  w ← lift (int_scaled (width base) (literal 16 100));
  ratio ← lift (int_truediv w (width logo));
  h ← lift (int_scaled (height logo) ratio);
  scaled ← lift (resize E logo (w, h));
  alpha_composite img scaled (width base - w - 40, height base - height scaled - 40);;
  mret (Some img).

(** The [try] block that attempts to draw 'pd'. *)
Definition draw_pd (d : draw) (cx cy : Z) : M unit :=
  f ← lift (load_default E);
  let text := "pd" in
  '(tw, th) ← draw_textsize d text f;
  x ← lift (half ← int_truediv tw 2; int_sub_float cx half);
  y ← lift (half ← int_truediv th 2; int_sub_float cy half);
  draw_text d (x, y) text (BRAND_CREAM cfg) f.

(** The part of [add_logo_or_mark] after the logo branch: a simple 'pd'
    circle mark. *)
Definition draw_mark (img : loc) : M loc :=
  let d := Draw img in
  base ← get img;
  r ← lift (int_scaled (width base) (literal 12 100));
  let cx := width base - r - 40 in
  let cy := height base - r - 40 in
  ellipse d (cx - r, cy - r, cx + r, cy + r) (BRAND_PRIMARY cfg);;
  try_except (draw_pd d cx cy) (mret ());;
  mret img.

Definition add_logo_or_mark (img : loc) : M loc :=
  img ← Image_copy img;
  returned ← (if str_bool (LOGO_URL cfg)
              then try_except (paste_logo img) (mret None)
              else mret None);
  match returned with
  | Some img => mret img
  | None => draw_mark img
  end.

(** ** Commands *)

Definition start : M unit :=
  reply_text "plaintext.daily assistant online. Try /idea, /caption, or /post".

Definition idea : M unit :=
  text ← lift (openai_chat idea_prompt default_model);
  reply_text text.

Definition caption (args : list string) : M unit :=
  let topic := caption_topic args in
  let prompt := caption_prompt topic in
  text ← lift (openai_chat prompt default_model);
  reply_text (text +:+ LF +:+ LF +:+ HASHTAGS).

(** [img.save(buf, format="PNG")] followed by [buf.seek(0)]: the buffer
    holds the encoded image. *)
Definition Image_save_png (img : loc) : M bytes :=
  im ← get img; lift (save_png E im).

Definition post (args : list string) : M unit :=
  let topic := post_topic args in
  (* 1) caption *)
  let cap_prompt := post_cap_prompt topic in
  caption_text ← lift (openai_chat cap_prompt default_model);
  (* 2) image *)
  let img_prompt := post_img_prompt topic in
  img ← openai_image img_prompt default_size;
  img ← add_logo_or_mark img;
  (* 3) send *)
  buf ← Image_save_png img;
  reply_photo buf (caption_text +:+ LF +:+ LF +:+ HASHTAGS).

Definition style : M unit :=
  reply_text (style_spec cfg).

(** Truthiness of a value that is a [str] or [None]. *)
Definition optional_bool (v : option string) : bool :=
  match v with Some s => str_bool s | None => false end.

(** A command handler, applied to [context.args]. *)
Definition command : Type := list string → M unit.

(** [main] up to [app.run_polling()]: it leaves with [SystemExit(message)]
    ([inl]) when a token is missing, and otherwise registers the handlers
    ([inr], in the order of the [add_handler] calls).  The polling loop
    belongs to the framework and is not modelled. *)
Definition main : string + list (string * command) :=
  if negb (optional_bool (TG_TOKEN cfg)) || negb (optional_bool (OPENAI_API_KEY cfg))
  then inl "Missing TELEGRAM_BOT_TOKEN or OPENAI_API_KEY in .env"
  else inr [ ("start", fun _ => start);
             ("idea", fun _ => idea);
             ("caption", caption);
             ("post", post);
             ("style", fun _ => style) ].

End handlers.

End Bot.
Export Bot.

(* ===================================================================== *)
(** * Vocabulary of the statements *)
(* ===================================================================== *)

Module Spec.

(** [sub] occurs in [s] as a contiguous run. *)
Definition contains (s sub : string) : Prop :=
  ∃ before after, s = before +:+ sub +:+ after.

(** The three generating commands. *)
Inductive kind : Type := Idea | Caption | Post.

(** The prompts the handler of a command builds from the command arguments:
    [idea] ignores them, [caption] builds one prompt and [post] two. *)
Definition PromptBuilder (k : kind) (args : list string) : list string :=
  match k with
  | Idea => [idea_prompt]
  | Caption => [caption_prompt (caption_topic args)]
  | Post => [post_cap_prompt (post_topic args); post_img_prompt (post_topic args)]
  end.

(** The configuration with [LOGO_URL] unset. *)
Definition without_logo (cfg : Config) : Config :=
  {| TG_TOKEN := TG_TOKEN cfg; OPENAI_API_KEY := OPENAI_API_KEY cfg;
     BRAND_PRIMARY := BRAND_PRIMARY cfg; BRAND_CREAM := BRAND_CREAM cfg;
     LOGO_URL := "" |}.

(** The box [draw_mark] hands to [draw.ellipse] for an image of the given
    size, with the radius as an integer quotient. *)
Definition mark_box (w h : Z) : box :=
  let r := 12 * w / 100 in
  let cx := w - r - 40 in
  let cy := h - r - 40 in
  (cx - r, cy - r, cx + r, cy + r).

(** [im'] is [im] with the logo the configured URL serves pasted on: the
    logo was fetched and decoded, scaled to [w = int(width * 0.16)] columns
    and [int(logo.height * (w / logo.width))] rows, and composited with its
    bottom-right corner 40 pixels inside that of [im]. *)
Definition logo_pasted (cfg : Config) (W : World) (E : engine) (im im' : image) : Prop :=
  ∃ b opened w ratio h scaled,
    requests_get W (LOGO_URL cfg) 10 = Some b ∧
    decode E b = Some opened ∧
    int_scaled (width im) (literal 16 100) = inr w ∧
    int_truediv w (width opened) = inr ratio ∧
    int_scaled (height opened) ratio = inr h ∧
    resize E (convert E M_RGBA opened) (w, h) = inr scaled ∧
    alpha_composite_image E im scaled (width im - w - 40, height im - height scaled - 40)
    = inr im'.

(** [im'] is [im] with the fallback mark drawn on: the disc in the brand
    primary colour, with or without the letters 'pd' over it. *)
Definition mark_drawn (cfg : Config) (E : engine) (im im' : image) : Prop :=
  ∃ ink, getrgb E (BRAND_PRIMARY cfg) = Some ink ∧
    let disc := filled_ellipse E im (mark_box (width im) (height im)) ink in
    im' = disc ∨ ∃ xy f, text_image E disc xy "pd" (BRAND_CREAM cfg) f = inr im'.

(** The text begins, respectively ends, with a white-space code point. *)
Definition starts_with_space (s : string) : Prop :=
  ∃ w rest, w ∈ whitespace ∧ byte_codes s = w ++ rest.

Definition ends_with_space (s : string) : Prop :=
  ∃ w rest, w ∈ whitespace ∧ byte_codes s = rest ++ w.

(** The text consists of white-space code points only. *)
Definition blank (s : string) : Prop :=
  ∃ ws, Forall (λ w, w ∈ whitespace) ws ∧ byte_codes s = concat ws.

(** [im'] has the pixel format and the size of [im]. *)
Definition same_shape (im im' : image) : Prop :=
  im_mode im' = im_mode im ∧ width im' = width im ∧ height im' = height im.

(** [s'] differs from [s] at most in the image the object [l] holds. *)
Definition touches (l : loc) (s s' : state) : Prop :=
  outbox s' = outbox s ∧ ∀ l0, l0 ≠ l → heap s' !! l0 = heap s !! l0.

(** What [j] applications of [shr_1] leave of the mantissa [M]: the quotient
    and the position of the remainder relative to its half. *)
Definition shifted (M j : Z) (mrs : shr_record) : Prop :=
  shr_m mrs = M / 2 ^ j ∧
  (shr_r mrs = true ↔ 2 ^ j ≤ 2 * (M mod 2 ^ j)) ∧
  (shr_s mrs = true ↔ (2 * (M mod 2 ^ j)) mod 2 ^ j ≠ 0).

(** [M / 2 ^ n] rounded to nearest, ties to even. *)
Definition rnd (M n : Z) : Z :=
  let q := M / 2 ^ n in
  let R := M mod 2 ^ n in
  if 2 * R <? 2 ^ n then q
  else if 2 ^ n <? 2 * R then q + 1
  else if Z.even q then q else q + 1.

(** A run that sends nothing on failure and one message on success, and
    leaves the images of the store as they were. *)
Definition replies_once (run : result unit * state) (s : state) : Prop :=
  (∀ l x, heap s !! l = Some x → heap (snd run) !! l = Some x) ∧
  match fst run with
  | inl _ => outbox (snd run) = outbox s
  | inr _ => ∃ m, outbox (snd run) = outbox s ++ [m]
  end.

End Spec.
Export Spec.

(* ===================================================================== *)
(** * A concrete environment *)
(* ===================================================================== *)

Module Example.

Definition hex_digit (a : Ascii.ascii) : option Z :=
  let n := Z.of_nat (Ascii.nat_of_ascii a) in
  if (48 <=? n) && (n <=? 57) then Some (n - 48)
  else if (65 <=? n) && (n <=? 70) then Some (n - 55)
  else if (97 <=? n) && (n <=? 102) then Some (n - 87)
  else None.

(** Colours of the form [#rrggbb]. *)
Definition hex_colour (s : string) : option pixel :=
  match s with
  | String h (String r1 (String r2 (String g1 (String g2 (String b1 (String b2 EmptyString)))))) =>
      if Z.of_nat (Ascii.nat_of_ascii h) =? 35 then
        r1 ← hex_digit r1; r2 ← hex_digit r2;
        g1 ← hex_digit g1; g2 ← hex_digit g2;
        b1 ← hex_digit b1; b2 ← hex_digit b2;
        Some (Pixel (16 * r1 + r2) (16 * g1 + g2) (16 * b1 + b2) 255)
      else None
  | _ => None
  end.

Definition cream : pixel := Pixel 244 239 226 255.
Definition ochre : pixel := Pixel 200 150 30 255.

(** The card the image service draws. *)
Definition card : image :=
  {| im_mode := M_RGB; width := 1024; height := 1024; px := fun _ _ => cream |}.

(** A logo of ordinary proportions and a very flat one. *)
Definition logo : image :=
  {| im_mode := M_RGBA; width := 400; height := 200; px := fun _ _ => ochre |}.

Definition banner : image :=
  {| im_mode := M_RGBA; width := 2000; height := 10; px := fun _ _ => ochre |}.

(** The disc test of the ellipse inscribed in a box, in integers. *)
Definition inscribed (b : box) (x y : Z) : bool :=
  let '(x0, y0, x1, y1) := b in
  let a := x1 - x0 in
  let c := y1 - y0 in
  (2 * x - x0 - x1) ^ 2 * c ^ 2 + (2 * y - y0 - y1) ^ 2 * a ^ 2 <=? a ^ 2 * c ^ 2.

(** A recent Pillow: no [textsize], ordered boxes required, negative
    destinations accepted. *)
Definition pillow : engine :=
  {| decode := fun b =>
       if String.eqb b "card" then Some card
       else if String.eqb b "logo" then Some logo
       else if String.eqb b "banner" then Some banner
       else None;
     truncated := fun b => String.eqb b "half a card";
     encode_png := fun im => "PNG";
     convert_px := fun _ _ p => p;
     resample := fun im w h x y => px im (x * width im / w) (y * height im / h);
     blend := fun dst src => if band3 src =? 0 then dst else src;
     covers := inscribed;
     getrgb := hex_colour;
     load_default := inr DefaultFont;
     textsize := None;
     render_text := fun r _ _ _ _ => Some r;
     dest_must_be_nonnegative := false;
     box_must_be_ordered := true |}.

Definition chat_reply : json :=
  JObj [ ("choices",
          JArr [ JObj [ ("message",
                         JObj [ ("role", JStr "assistant");
                                ("content",
                                 JStr "Ship something small today. practical > perfect.") ]) ] ]) ].

Definition image_reply : json :=
  JObj [ ("data", JArr [ JObj [ ("b64_json", JStr "card") ] ]) ].

Definition codecs : Codecs :=
  {| utf8_decode := fun b => Some b;
     json_loads := fun text =>
       if String.eqb text "chat reply" then Some chat_reply
       else if String.eqb text "image reply" then Some image_reply
       else if String.eqb text "empty object" then Some (JObj [])
       else None;
     b64decode := fun s => Some s |}.

(** Both services answer; two logos are published. *)
Definition online : World :=
  {| urlopen := fun req _ =>
       if String.eqb (req_url req) "https://api.openai.com/v1/chat/completions"
       then inr "chat reply"
       else if String.eqb (req_url req) "https://api.openai.com/v1/images/generations"
       then inr "image reply"
       else inl Unreachable;
     requests_get := fun url _ =>
       if String.eqb url "https://example.org/logo.png" then Some "logo"
       else if String.eqb url "https://example.org/banner.png" then Some "banner"
       else if String.eqb url "https://example.org/index.html" then Some "<html>"
       else None |}.

(** The image service does not answer in time. *)
Definition image_timeout : World :=
  {| urlopen := fun req _ =>
       if String.eqb (req_url req) "https://api.openai.com/v1/chat/completions"
       then inr "chat reply"
       else inl TimedOut;
     requests_get := requests_get online |}.

(** The chat service answers with an object that has no ["choices"]. *)
Definition chat_malformed : World :=
  {| urlopen := fun req _ =>
       if String.eqb (req_url req) "https://api.openai.com/v1/chat/completions"
       then inr "empty object"
       else urlopen online req 0;
     requests_get := requests_get online |}.

(** The environment of the quick start, with and without a logo. *)
Definition environ (logo_url : option string) (key : string) : option string :=
  if String.eqb key "TELEGRAM_BOT_TOKEN" then Some "123:abc"
  else if String.eqb key "OPENAI_API_KEY" then Some "sk-test"
  else if String.eqb key "LOGO_URL" then logo_url
  else None.

Definition plain : Config := load_config (environ None).
Definition branded (url : string) : Config := load_config (environ (Some url)).

(** A store holding one RGBA card. *)
Definition canvas : image := convert pillow M_RGBA card.
Definition studio : state := {| heap := {[ 1%positive := canvas ]}; outbox := [] |}.

(** The quick start with a brand colour Pillow does not know. *)
Definition miscoloured : Config :=
  load_config (fun key => if String.eqb key "BRAND_PRIMARY" then Some "not a colour"
                          else environ None key).




End Example.

(* ===================================================================== *)
(** * Binary64 arithmetic of the mark geometry *)
(* ===================================================================== *)

(** [int(w * 0.12)] and [int(w * 0.16)] are computed in binary64.  This part
    relates the rounding performed by [SFmul] to integer division and shows
    that, for every width an image can have, the two expressions are the
    integer quotients [12 * w / 100] and [16 * w / 100]. *)

Section rounding.

Lemma digits2_pos_size p : digits2_pos p = Pos.size p.
Proof. induction p; simpl; congruence. Qed.

Lemma Zdigits2_log2 M : 0 < M → Zdigits2 M = Z.log2 M + 1.
Proof.
  destruct M as [|p|p]; try lia. intros _. simpl.
  destruct p; simpl; rewrite ?digits2_pos_size; lia.
Qed.

Lemma Zdigits2_unique M d : 0 < d → 2 ^ (d - 1) ≤ M < 2 ^ d → Zdigits2 M = d.
Proof.
  intros Hd HM. assert (0 < M) by (pose proof (Z.pow_pos_nonneg 2 (d - 1)); lia).
  rewrite Zdigits2_log2 by done.
  rewrite (Z.log2_unique M (d - 1)); [lia|lia|].
  replace (Z.succ (d - 1)) with d by lia. done.
Qed.

Lemma shr_1_nonneg m r s :
  0 ≤ m → shr_1 (Build_shr_record m r s) = Build_shr_record (m / 2) (Z.odd m) (r || s).
Proof.
  intros Hm. destruct m as [|p|p]; [done| |lia].
  destruct p as [p|p|]; simpl shr_1.
  - replace (Z.pos p~1 / 2) with (Z.pos p); [done|].
    rewrite Pos2Z.inj_xI. apply Z.div_unique with 1; lia.
  - replace (Z.pos p~0 / 2) with (Z.pos p); [done|].
    rewrite Pos2Z.inj_xO. apply Z.div_unique with 0; lia.
  - done.
Qed.

Lemma shifted_0 M : shifted M 0 (Build_shr_record M false false).
Proof.
  unfold shifted; simpl. rewrite Z.div_1_r, Z.mod_1_r. simpl. split_and!; [done|lia|done].
Qed.

Lemma shifted_step M j mrs :
  0 ≤ M → 0 ≤ j → shifted M j mrs → shifted M (j + 1) (shr_1 mrs).
Proof.
  intros HM Hj (Hm & Hr & Hs). destruct mrs as [m r s]; simpl in Hm, Hr, Hs.
  assert (HP : 0 < 2 ^ j) by (apply Z.pow_pos_nonneg; lia).
  rewrite shr_1_nonneg by (subst m; apply Z.div_pos; lia).
  unfold shifted; cbn [shr_m shr_r shr_s].
  rewrite Z.pow_add_r, Z.pow_1_r by lia.
  set (P := 2 ^ j) in *.
  pose proof (Z.div_mod M P ltac:(lia)) as HMd.
  pose proof (Z.mod_pos_bound M P HP) as HR.
  set (R := M mod P) in *. rewrite <- Hm in HMd.
  pose proof (Z.div_mod m 2 ltac:(lia)) as Hmd.
  pose proof (Z.mod_pos_bound m 2 ltac:(lia)) as Hb.
  assert (HR' : M mod (P * 2) = R + P * (m mod 2)).
  { symmetry. apply Z.mod_unique with (m / 2); [nia|nia]. }
  assert (Hq' : M / (P * 2) = m / 2).
  { symmetry. apply Z.div_unique with (R + P * (m mod 2)); [nia|nia]. }
  assert (HrsR : r || s = true ↔ R ≠ 0).
  { rewrite orb_true_iff, Hr, Hs. split.
    - intros [?|H]; [lia|]. intros HR0. apply H. rewrite HR0. done.
    - intros HR0. destruct (Z_le_gt_dec P (2 * R)); [by left|right].
      rewrite Z.mod_small by lia. lia. }
  rewrite HR', Hq'. split_and!; [done| |].
  - rewrite <- Z.negb_even, Zeven_mod.
    destruct (Z.eqb_spec (m mod 2) 0) as [H0|H0]; simpl; split; intros; try done; nia.
  - rewrite HrsR.
    replace (2 * (R + P * (m mod 2))) with (2 * R + (m mod 2) * (P * 2)) by lia.
    rewrite Z.mod_add by lia. rewrite Z.mod_small by lia. lia.
Qed.

Lemma shifted_iter k : ∀ M j mrs,
  0 ≤ M → 0 ≤ j → shifted M j mrs → shifted M (j + Zpos k) (SpecFloat.iter_pos shr_1 k mrs).
Proof.
  induction k as [k IH|k IH|]; intros M j mrs HM Hj H; simpl.
  - replace (j + Z.pos k~1) with ((j + 1 + Z.pos k) + Z.pos k) by lia.
    apply IH; [done|lia|]. apply IH; [done|lia|]. by apply shifted_step.
  - replace (j + Z.pos k~0) with ((j + Z.pos k) + Z.pos k) by lia.
    apply IH; [done|lia|]. by apply IH.
  - by apply shifted_step.
Qed.

Lemma round_shifted M n mrs :
  0 ≤ n → shifted M n mrs →
  round_nearest_even (shr_m mrs) (loc_of_shr_record mrs) = rnd M n.
Proof.
  intros Hn (Hm & Hr & Hs). unfold rnd.
  assert (HP : 0 < 2 ^ n) by (apply Z.pow_pos_nonneg; lia).
  pose proof (Z.mod_pos_bound M (2 ^ n) HP) as HR.
  destruct mrs as [m r s]; simpl in *. subst m.
  destruct r, s; simpl.
  - assert (2 ^ n ≤ 2 * (M mod 2 ^ n)) by (by apply Hr).
    assert ((2 * (M mod 2 ^ n)) mod 2 ^ n ≠ 0) by (by apply Hs).
    assert (2 * (M mod 2 ^ n) ≠ 2 ^ n) by (intros Heq; rewrite Heq, Z.mod_same in *; lia).
    destruct (Z.ltb_spec (2 * (M mod 2 ^ n)) (2 ^ n)); [lia|].
    destruct (Z.ltb_spec (2 ^ n) (2 * (M mod 2 ^ n))); [done|lia].
  - assert (2 ^ n ≤ 2 * (M mod 2 ^ n)) by (by apply Hr).
    assert (¬ (2 * (M mod 2 ^ n)) mod 2 ^ n ≠ 0) by (rewrite <- Hs; done).
    destruct (Z.ltb_spec (2 * (M mod 2 ^ n)) (2 ^ n)); [lia|].
    destruct (Z.ltb_spec (2 ^ n) (2 * (M mod 2 ^ n))); [|done].
    exfalso. apply H0.
    replace (2 * (M mod 2 ^ n)) with ((2 * (M mod 2 ^ n) - 2 ^ n) + 1 * 2 ^ n) by lia.
    rewrite Z.mod_add, Z.mod_small by lia. lia.
  - assert (¬ 2 ^ n ≤ 2 * (M mod 2 ^ n)) by (rewrite <- Hr; done).
    destruct (Z.ltb_spec (2 * (M mod 2 ^ n)) (2 ^ n)); [done|lia].
  - assert (¬ 2 ^ n ≤ 2 * (M mod 2 ^ n)) by (rewrite <- Hr; done).
    destruct (Z.ltb_spec (2 * (M mod 2 ^ n)) (2 ^ n)); [done|lia].
Qed.

Lemma rnd_bounds M n :
  0 ≤ n → 2 ^ (n + 52) ≤ M < 2 ^ (n + 53) → 2 ^ 52 ≤ rnd M n ≤ 2 ^ 53.
Proof.
  intros Hn HM.
  assert (HP : 0 < 2 ^ n) by (apply Z.pow_pos_nonneg; lia).
  rewrite !Z.pow_add_r in HM by lia.
  assert (2 ^ 52 ≤ M / 2 ^ n < 2 ^ 53).
  { split; [apply Z.div_le_lower_bound; lia|apply Z.div_lt_upper_bound; lia]. }
  unfold rnd. repeat case_match; lia.
Qed.

Lemma fexp_normal e : -1074 ≤ e - 53 → fexp prec emax e = e - 53.
Proof. unfold fexp, emin, prec, emax. lia. Qed.

Lemma shr_fexp_normal M E n :
  0 ≤ n → 2 ^ (n + 52) ≤ M < 2 ^ (n + 53) → -1074 ≤ E + n →
  ∃ mrs, shr_fexp prec emax M E loc_Exact = (mrs, E + n) ∧ shifted M n mrs.
Proof.
  intros Hn HM HE. unfold shr_fexp.
  rewrite (Zdigits2_unique M (n + 53)) by (replace (n + 53 - 1) with (n + 52) by lia; lia).
  rewrite fexp_normal by lia.
  replace (n + 53 + E - 53 - E) with n by lia.
  destruct n as [|k|k]; [| |lia]; simpl.
  - eexists; split; [f_equal; lia|]. apply shifted_0.
  - eexists; split; [done|].
    apply (shifted_iter k M 0); [|done|apply shifted_0].
    pose proof (Z.pow_pos_nonneg 2 (Z.pos k + 52)); lia.
Qed.

Lemma binary_round_aux_normal M E n :
  0 ≤ n → 2 ^ (n + 52) ≤ M < 2 ^ (n + 53) → -1074 ≤ E + n → E + n + 1 ≤ 971 →
  ∃ m e, binary_round_aux prec emax false M E loc_Exact = S754_finite false m e ∧
         E + n ≤ e ≤ E + n + 1 ∧ Zpos m * 2 ^ (e - (E + n)) = rnd M n ∧
         2 ^ 52 ≤ Zpos m < 2 ^ 53.
Proof.
  intros Hn HM HE1 HE2. unfold binary_round_aux.
  destruct (shr_fexp_normal M E n Hn HM HE1) as (mrs & -> & Hsh).
  rewrite (round_shifted M n) by done.
  pose proof (rnd_bounds M n Hn HM) as Hb.
  destruct (Z.eq_dec (rnd M n) (2 ^ 53)) as [Heq|Hne].
  - rewrite Heq. exists 4503599627370496%positive, (E + n + 1).
    unfold shr_fexp. rewrite (Zdigits2_unique _ 54) by lia.
    rewrite fexp_normal by lia.
    replace (54 + (E + n) - 53 - (E + n)) with 1 by lia.
    change (2 ^ 53) with 9007199254740992. cbn [shr_record_of_loc shr SpecFloat.iter_pos shr_1 shr_m].
    replace (E + n + 1 <=? emax - prec) with true
      by (symmetry; apply Z.leb_le; unfold emax, prec; lia).
    split_and!; try done; try lia.
    replace (E + n + 1 - (E + n)) with 1 by lia. done.
  - destruct (shr_fexp_normal (rnd M n) (E + n) 0) as (mrs' & -> & Hsh'); [lia|simpl; lia|lia|].
    destruct Hsh' as (Hm' & _). rewrite Z.pow_0_r, Z.div_1_r in Hm'.
    rewrite Z.add_0_r. rewrite Hm'.
    destruct (rnd M n) as [|m|m] eqn:Hr; [lia| |lia].
    replace (E + n <=? emax - prec) with true by (symmetry; apply Z.leb_le; unfold emax, prec; lia).
    exists m, (E + n). split_and!; try done; try lia.
    rewrite Z.sub_diag. lia.
Qed.

Lemma pos_iter_xO p k : Zpos (Pos.iter xO p k) = Zpos p * 2 ^ Zpos k.
Proof.
  induction k as [|k IH] using Pos.peano_ind.
  - simpl. lia.
  - rewrite Pos.iter_succ, Pos2Z.inj_xO, IH, Pos2Z.inj_succ, Z.pow_succ_r by lia. lia.
Qed.

Lemma float_of_int_normal w d :
  0 < d ≤ 53 → 2 ^ (d - 1) ≤ w < 2 ^ d →
  ∃ m, float_of_int w = inr (S754_finite false m (d - 53)) ∧ Zpos m = w * 2 ^ (53 - d).
Proof.
  intros Hd Hw.
  assert (0 < w) by (pose proof (Z.pow_pos_nonneg 2 (d - 1)); lia).
  destruct w as [|p|p]; [lia| |lia].
  unfold float_of_int, binary_normalize, binary_round.
  change (Z.pos (digits2_pos p)) with (Zdigits2 (Zpos p)).
  rewrite (Zdigits2_unique _ d) by lia.
  rewrite Z.add_0_r, fexp_normal by lia.
  assert (Hal : ∃ mz, shl_align p 0 (d - 53) = (mz, d - 53) ∧ Zpos mz = Zpos p * 2 ^ (53 - d)).
  { unfold shl_align. destruct (d - 53 - 0) as [|k|k] eqn:Hk; [|lia|].
    - exists p. replace (d - 53) with 0 by lia. split; [done|]. replace (53 - d) with 0 by lia. lia.
    - eexists; split; [done|]. rewrite pos_iter_xO. f_equal. f_equal. lia. }
  destruct Hal as (mz & -> & Hmz).
  assert (HM : 2 ^ (0 + 52) ≤ Zpos mz < 2 ^ (0 + 53)).
  { rewrite Hmz. change (0 + 52) with 52. change (0 + 53) with 53.
    assert (H52 : 2 ^ 52 = 2 ^ (d - 1) * 2 ^ (53 - d))
      by (rewrite <- Z.pow_add_r by lia; f_equal; lia).
    assert (H53 : 2 ^ 53 = 2 ^ d * 2 ^ (53 - d))
      by (rewrite <- Z.pow_add_r by lia; f_equal; lia).
    rewrite H52, H53.
    assert (0 < 2 ^ (53 - d)) by (apply Z.pow_pos_nonneg; lia). nia. }
  destruct (binary_round_aux_normal (Zpos mz) (d - 53) 0) as (m & e & -> & He & Hv & Hm);
    [lia|done|lia|lia|].
  assert (Hr0 : rnd (Zpos mz) 0 = Zpos mz).
  { unfold rnd. rewrite Z.pow_0_r, Z.div_1_r, Z.mod_1_r. done. }
  rewrite Hr0 in Hv. simpl in HM.
  assert (e = d - 53).
  { destruct (Z.eq_dec e (d - 53)); [done|]. replace (e - (d - 53 + 0)) with 1 in Hv by lia. lia. }
  subst e. replace (d - 53 - (d - 53 + 0)) with 0 in Hv by lia.
  exists m. split; [done|]. lia.
Qed.

Lemma int_fmul_normal mx ex my ey n :
  0 ≤ n → 2 ^ (n + 52) ≤ Zpos mx * Zpos my < 2 ^ (n + 53) →
  -1074 ≤ ex + ey + n → ex + ey + n + 1 < 0 →
  int_of_float (fmul (S754_finite false mx ex) (S754_finite false my ey))
  = inr (rnd (Zpos mx * Zpos my) n / 2 ^ (- (ex + ey + n))).
Proof.
  intros Hn HM HE1 HE2. unfold fmul, SFmul. simpl xorb.
  rewrite Pos2Z.inj_mul.
  destruct (binary_round_aux_normal (Zpos mx * Zpos my) (ex + ey) n) as (m & e & -> & He & Hv & Hm);
    [done|done|done|lia|].
  unfold int_of_float. destruct e as [|e|e]; [lia|lia|].
  f_equal. rewrite Z.shiftr_div_pow2 by lia. rewrite <- Hv.
  replace (- (ex + ey + n)) with ((Z.neg e - (ex + ey + n)) + Z.pos e) by lia.
  rewrite Z.pow_add_r by lia.
  rewrite (Z.mul_comm (Z.pos m)), Z.div_mul_cancel_l; [done| |].
  - apply Z.pow_nonzero; lia.
  - apply Z.pow_nonzero; lia.
Qed.

Lemma rnd_range M n : 0 ≤ n → M / 2 ^ n ≤ rnd M n ≤ M / 2 ^ n + 1.
Proof. intros. unfold rnd. repeat case_match; lia. Qed.

Lemma rnd_up M n : 2 ^ n < 2 * (M mod 2 ^ n) → rnd M n = M / 2 ^ n + 1.
Proof.
  intros H. unfold rnd.
  destruct (Z.ltb_spec (2 * (M mod 2 ^ n)) (2 ^ n)); [lia|].
  destruct (Z.ltb_spec (2 ^ n) (2 * (M mod 2 ^ n))); [done|lia].
Qed.

(** Dividing [w] and the quotient by a common scale [K]. *)
Lemma scaled_quotient w K a b :
  0 < K → 0 < b →
  let q := a * w / b in
  ∃ KR, a * (w * K) = b * (K * q) + KR ∧ (KR = 0 ∨ K ≤ KR) ∧ KR ≤ (b - 1) * K.
Proof.
  intros HK Hb q.
  pose proof (Z.div_mod (a * w) b ltac:(lia)) as Hq.
  pose proof (Z.mod_pos_bound (a * w) b ltac:(lia)) as Hr.
  fold q in Hq. exists (K * ((a * w) mod b)). split_and!; [nia| |nia].
  destruct (Z.eq_dec ((a * w) mod b) 0) as [->|]; [left; lia|right; nia].
Qed.

Lemma core12_52 w K X :
  X = w * K → 2 ^ 22 ≤ K → 2 ^ 52 ≤ X < 2 ^ 53 → X * 8646911284551352 < 2 ^ 105 →
  rnd (X * 8646911284551352) 52 / (16 * K) = 3 * w / 25.
Proof.
  intros HX HK HXb HM.
  change (2 ^ 52) with 4503599627370496 in *. change (2 ^ 53) with 9007199254740992 in *.
  change (2 ^ 22) with 4194304 in *. change (2 ^ 105) with 40564819207303340847894502572032 in *.
  destruct (scaled_quotient w K 3 25) as (KR & HY & HKR & HKR'); [lia|lia|].
  rewrite <- HX in HY. set (q := 3 * w / 25) in *. clearbody q.
  pose proof (rnd_range (X * 8646911284551352) 52 ltac:(lia)) as Hrng.
  pose proof (rnd_up (X * 8646911284551352) 52) as Hup.
  change (2 ^ 52) with 4503599627370496 in *.
  pose proof (Z.div_mod (X * 8646911284551352) 4503599627370496 ltac:(lia)) as Hd.
  pose proof (Z.mod_pos_bound (X * 8646911284551352) 4503599627370496 ltac:(lia)) as Hb.
  set (m1 := (X * 8646911284551352) / 4503599627370496) in *.
  set (R := (X * 8646911284551352) mod 4503599627370496) in *.
  set (r := rnd (X * 8646911284551352) 52) in *. clearbody m1 R r.
  set (Y := K * q) in *.
  symmetry. apply Z.div_unique with (r - 16 * Y); [left|unfold Y; lia].
  clearbody Y. clear HX.
  assert (m1 + 1 < 16 * Y + 16 * K) by lia.
  destruct HKR as [->|HKR].
  - assert (m1 = 16 * Y - 1 ∧ 4503599627370496 < 2 * R) as [-> HR] by lia.
    rewrite Hup by done. lia.
  - assert (16 * Y ≤ m1) by lia. lia.
Qed.

Lemma core12_53 w K X :
  X = w * K → 2 ^ 22 ≤ K → 2 ^ 52 ≤ X < 2 ^ 53 → 2 ^ 105 ≤ X * 8646911284551352 →
  rnd (X * 8646911284551352) 53 / (8 * K) = 3 * w / 25.
Proof.
  intros HX HK HXb HM.
  change (2 ^ 52) with 4503599627370496 in *. change (2 ^ 53) with 9007199254740992 in *.
  change (2 ^ 22) with 4194304 in *. change (2 ^ 105) with 40564819207303340847894502572032 in *.
  destruct (scaled_quotient w K 3 25) as (KR & HY & HKR & HKR'); [lia|lia|].
  rewrite <- HX in HY. set (q := 3 * w / 25) in *. clearbody q.
  pose proof (rnd_range (X * 8646911284551352) 53 ltac:(lia)) as Hrng.
  pose proof (rnd_up (X * 8646911284551352) 53) as Hup.
  change (2 ^ 53) with 9007199254740992 in *.
  pose proof (Z.div_mod (X * 8646911284551352) 9007199254740992 ltac:(lia)) as Hd.
  pose proof (Z.mod_pos_bound (X * 8646911284551352) 9007199254740992 ltac:(lia)) as Hb.
  set (m1 := (X * 8646911284551352) / 9007199254740992) in *.
  set (R := (X * 8646911284551352) mod 9007199254740992) in *.
  set (r := rnd (X * 8646911284551352) 53) in *. clearbody m1 R r.
  set (Y := K * q) in *.
  symmetry. apply Z.div_unique with (r - 8 * Y); [left|unfold Y; lia].
  clearbody Y. clear HX.
  assert (m1 + 1 < 8 * Y + 8 * K) by lia.
  destruct HKR as [->|HKR].
  - assert (m1 = 8 * Y - 1 ∧ 9007199254740992 < 2 * R) as [-> HR] by lia.
    rewrite Hup by done. lia.
  - assert (8 * Y ≤ m1) by lia. lia.
Qed.

Lemma core16_52 w K X :
  X = w * K → 2 ^ 22 ≤ K → 2 ^ 52 ≤ X < 2 ^ 53 → X * 5764607523034235 < 2 ^ 105 →
  rnd (X * 5764607523034235) 52 / (8 * K) = 4 * w / 25.
Proof.
  intros HX HK HXb HM.
  change (2 ^ 52) with 4503599627370496 in *. change (2 ^ 53) with 9007199254740992 in *.
  change (2 ^ 22) with 4194304 in *. change (2 ^ 105) with 40564819207303340847894502572032 in *.
  destruct (scaled_quotient w K 4 25) as (KR & HY & HKR & HKR'); [lia|lia|].
  rewrite <- HX in HY. set (q := 4 * w / 25) in *. clearbody q.
  pose proof (rnd_range (X * 5764607523034235) 52 ltac:(lia)) as Hrng.
  change (2 ^ 52) with 4503599627370496 in *.
  pose proof (Z.div_mod (X * 5764607523034235) 4503599627370496 ltac:(lia)) as Hd.
  pose proof (Z.mod_pos_bound (X * 5764607523034235) 4503599627370496 ltac:(lia)) as Hb.
  set (m1 := (X * 5764607523034235) / 4503599627370496) in *.
  set (R := (X * 5764607523034235) mod 4503599627370496) in *.
  set (r := rnd (X * 5764607523034235) 52) in *. clearbody m1 R r.
  set (Y := K * q) in *.
  symmetry. apply Z.div_unique with (r - 8 * Y); [left|unfold Y; lia].
  clearbody Y. clear HX.
  assert (m1 + 1 < 8 * Y + 8 * K) by lia.
  assert (8 * Y ≤ m1) by lia. lia.
Qed.

Lemma core16_53 w K X :
  X = w * K → 2 ^ 22 ≤ K → 2 ^ 52 ≤ X < 2 ^ 53 → 2 ^ 105 ≤ X * 5764607523034235 →
  rnd (X * 5764607523034235) 53 / (4 * K) = 4 * w / 25.
Proof.
  intros HX HK HXb HM.
  change (2 ^ 52) with 4503599627370496 in *. change (2 ^ 53) with 9007199254740992 in *.
  change (2 ^ 22) with 4194304 in *. change (2 ^ 105) with 40564819207303340847894502572032 in *.
  destruct (scaled_quotient w K 4 25) as (KR & HY & HKR & HKR'); [lia|lia|].
  rewrite <- HX in HY. set (q := 4 * w / 25) in *. clearbody q.
  pose proof (rnd_range (X * 5764607523034235) 53 ltac:(lia)) as Hrng.
  change (2 ^ 53) with 9007199254740992 in *.
  pose proof (Z.div_mod (X * 5764607523034235) 9007199254740992 ltac:(lia)) as Hd.
  pose proof (Z.mod_pos_bound (X * 5764607523034235) 9007199254740992 ltac:(lia)) as Hb.
  set (m1 := (X * 5764607523034235) / 9007199254740992) in *.
  set (R := (X * 5764607523034235) mod 9007199254740992) in *.
  set (r := rnd (X * 5764607523034235) 53) in *. clearbody m1 R r.
  set (Y := K * q) in *.
  symmetry. apply Z.div_unique with (r - 4 * Y); [left|unfold Y; lia].
  clearbody Y. clear HX.
  assert (m1 + 1 < 4 * Y + 4 * K) by lia.
  assert (4 * Y ≤ m1) by lia. lia.
Qed.

Lemma literal_12_100 : literal 12 100 = S754_finite false 8646911284551352 (-56).
Proof. vm_compute. reflexivity. Qed.

Lemma literal_16_100 : literal 16 100 = S754_finite false 5764607523034235 (-55).
Proof. vm_compute. reflexivity. Qed.

(** The normal form of [float(w)] for a positive [w] below [2 ^ 31]. *)
Lemma float_of_int_small w :
  0 < w < 2 ^ 31 →
  ∃ m K, float_of_int w = inr (S754_finite false m (- Z.log2 K)) ∧
         Zpos m = w * K ∧ 2 ^ 22 ≤ K ∧ K = 2 ^ Z.log2 K ∧ 22 ≤ Z.log2 K ≤ 52 ∧
         2 ^ 52 ≤ Zpos m < 2 ^ 53.
Proof.
  intros Hw. set (d := Z.log2 w + 1).
  assert (Hd : 2 ^ (d - 1) ≤ w < 2 ^ d).
  { unfold d. replace (Z.log2 w + 1 - 1) with (Z.log2 w) by lia.
    pose proof (Z.log2_spec w ltac:(lia)). lia. }
  assert (Hd0 : 0 ≤ Z.log2 w) by apply Z.log2_nonneg.
  assert (Hd31 : d ≤ 31).
  { unfold d. assert (Z.log2 w < 31); [|lia]. apply Z.log2_lt_pow2; lia. }
  destruct (float_of_int_normal w d) as (m & Hf & Hm); [lia|done|].
  exists m, (2 ^ (53 - d)).
  rewrite Z.log2_pow2 by lia.
  replace (- (53 - d)) with (d - 53) by lia.
  assert (H52 : 2 ^ 52 = 2 ^ (d - 1) * 2 ^ (53 - d))
    by (rewrite <- Z.pow_add_r by lia; f_equal; lia).
  assert (H53 : 2 ^ 53 = 2 ^ d * 2 ^ (53 - d))
    by (rewrite <- Z.pow_add_r by lia; f_equal; lia).
  assert (0 < 2 ^ (53 - d)) by (apply Z.pow_pos_nonneg; lia).
  split_and!; try done; try lia.
  - apply Z.pow_le_mono_r; lia.
  - rewrite Hm, H52. nia.
  - rewrite Hm, H53. nia.
Qed.

Lemma int_scaled_12 w :
  0 ≤ w < 2 ^ 31 → int_scaled w (literal 12 100) = inr (12 * w / 100).
Proof.
  intros Hw. destruct (Z.eq_dec w 0) as [->|Hne]; [vm_compute; reflexivity|].
  destruct (float_of_int_small w) as (m & K & Hf & Hm & HK & HK2 & Hl & HX); [lia|].
  unfold int_scaled, int_mul_float. rewrite Hf, literal_12_100.
  cbn [mbind mret result_bind result_ret].
  replace (12 * w / 100) with (3 * w / 25)
    by (replace (12 * w) with (4 * (3 * w)) by lia; change 100 with (4 * 25);
        rewrite Z.div_mul_cancel_l by lia; done).
  assert (HP : ∀ j, 0 ≤ j → 2 ^ (Z.log2 K + j) = 2 ^ j * K).
  { intros j Hj. rewrite Z.pow_add_r by lia. lia. }
  destruct (Z_lt_le_dec (Zpos m * 8646911284551352) (2 ^ 105)) as [Hlt|Hge].
  - rewrite (int_fmul_normal _ _ _ _ 52); [|lia|change (Z.pos 8646911284551352) with 8646911284551352; change (2 ^ (52 + 52)) with (2 ^ 52 * 4503599627370496); change (2 ^ (52 + 53)) with (2 ^ 105); lia|lia|lia].
    f_equal. replace (- (- Z.log2 K + -56 + 52)) with (Z.log2 K + 4) by lia.
    rewrite HP by lia. change (2 ^ 4) with 16.
    apply core12_52; done.
  - rewrite (int_fmul_normal _ _ _ _ 53); [|lia|change (Z.pos 8646911284551352) with 8646911284551352; change (2 ^ (53 + 52)) with (2 ^ 105); change (2 ^ (53 + 53)) with (2 ^ 53 * 9007199254740992); lia|lia|lia].
    f_equal. replace (- (- Z.log2 K + -56 + 53)) with (Z.log2 K + 3) by lia.
    rewrite HP by lia. change (2 ^ 3) with 8.
    apply core12_53; done.
Qed.

Lemma int_scaled_16 w :
  0 ≤ w < 2 ^ 31 → int_scaled w (literal 16 100) = inr (16 * w / 100).
Proof.
  intros Hw. destruct (Z.eq_dec w 0) as [->|Hne]; [vm_compute; reflexivity|].
  destruct (float_of_int_small w) as (m & K & Hf & Hm & HK & HK2 & Hl & HX); [lia|].
  unfold int_scaled, int_mul_float. rewrite Hf, literal_16_100.
  cbn [mbind mret result_bind result_ret].
  replace (16 * w / 100) with (4 * w / 25)
    by (replace (16 * w) with (4 * (4 * w)) by lia; change 100 with (4 * 25);
        rewrite Z.div_mul_cancel_l by lia; done).
  assert (HP : ∀ j, 0 ≤ j → 2 ^ (Z.log2 K + j) = 2 ^ j * K).
  { intros j Hj. rewrite Z.pow_add_r by lia. lia. }
  destruct (Z_lt_le_dec (Zpos m * 5764607523034235) (2 ^ 105)) as [Hlt|Hge].
  - rewrite (int_fmul_normal _ _ _ _ 52); [|lia|change (Z.pos 5764607523034235) with 5764607523034235; change (2 ^ (52 + 52)) with (2 ^ 52 * 4503599627370496); change (2 ^ (52 + 53)) with (2 ^ 105); lia|lia|lia].
    f_equal. replace (- (- Z.log2 K + -55 + 52)) with (Z.log2 K + 3) by lia.
    rewrite HP by lia. change (2 ^ 3) with 8.
    apply core16_52; done.
  - rewrite (int_fmul_normal _ _ _ _ 53); [|lia|change (Z.pos 5764607523034235) with 5764607523034235; change (2 ^ (53 + 52)) with (2 ^ 105); change (2 ^ (53 + 53)) with (2 ^ 53 * 9007199254740992); lia|lia|lia].
    f_equal. replace (- (- Z.log2 K + -55 + 53)) with (Z.log2 K + 2) by lia.
    rewrite HP by lia. change (2 ^ 2) with 4.
    apply core16_53; done.
Qed.

End rounding.

(* ===================================================================== *)
(** * The brand mark *)
(* ===================================================================== *)

(** Unfolding of the monad operations. *)
Ltac msimpl :=
  repeat (progress (unfold mbind, mret, M_bind, M_ret, result_bind, result_ret, lift,
                      get, set, update, new, try_except, of_option, raise));
  cbn [fst snd heap outbox target].

Section mark.
Context (cfg : Config) (W : World) (E : engine).

Lemma paste_logo_cases l s base :
  heap s !! l = Some base →
  (∃ e, paste_logo cfg W E l s = (inl e, s)) ∨
  (∃ im', logo_pasted cfg W E base im' ∧
          paste_logo cfg W E l s
          = (inr (Some l), {| heap := <[l := im']> (heap s); outbox := outbox s |})).
Proof.
  intros Hl. unfold paste_logo, logo_pasted, alpha_composite, open. msimpl.
  destruct (requests_get W (LOGO_URL cfg) 10) as [b|] eqn:Hget; msimpl; [|left; eauto].
  destruct (decode E b) as [opened|] eqn:Hdec; msimpl; [|left; eauto].
  rewrite ?Hl; msimpl.
  destruct (int_scaled (width base) (literal 16 100)) as [e|w] eqn:Hw; msimpl; [left; eauto|].
  change (width (convert E M_RGBA opened)) with (width opened).
  change (height (convert E M_RGBA opened)) with (height opened).
  destruct (int_truediv w (width opened)) as [e|ratio] eqn:Hr; msimpl; [left; eauto|].
  destruct (int_scaled (height opened) ratio) as [e|h] eqn:Hh; msimpl; [left; eauto|].
  destruct (resize E (convert E M_RGBA opened) (w, h)) as [e|scaled] eqn:Hs; msimpl; [left; eauto|].
  rewrite ?Hl; msimpl.
  destruct (alpha_composite_image E base scaled _) as [e|im'] eqn:Hc; msimpl; [left; eauto|].
  right. exists im'. split; [|done].
  exists b, opened, w, ratio, h, scaled. done.
Qed.

Lemma draw_pd_cases d cx cy s im :
  heap s !! target d = Some im →
  (∃ e, draw_pd cfg E d cx cy s = (inl e, s)) ∨
  (∃ xy f im', text_image E im xy "pd" (BRAND_CREAM cfg) f = inr im' ∧
     draw_pd cfg E d cx cy s
     = (inr (), {| heap := <[target d := im']> (heap s); outbox := outbox s |})).
Proof.
  intros Hl. unfold draw_pd, draw_textsize, draw_text. msimpl.
  destruct (load_default E) as [e|f]; msimpl; [left; eauto|].
  destruct (textsize E) as [measure|]; msimpl; [|left; eauto].
  destruct (measure f "pd") as [tw th]. msimpl.
  destruct (int_truediv tw 2) as [e|hx]; msimpl; [left; eauto|].
  destruct (int_sub_float cx hx) as [e|x]; msimpl; [left; eauto|].
  destruct (int_truediv th 2) as [e|hy]; msimpl; [left; eauto|].
  destruct (int_sub_float cy hy) as [e|y]; msimpl; [left; eauto|].
  rewrite ?Hl; msimpl.
  destruct (text_image E im (x, y) "pd" (BRAND_CREAM cfg) f) as [e|im'] eqn:Ht; msimpl;
    [left; eauto|].
  right. exists (x, y), f, im'. done.
Qed.

Lemma ellipse_image_mark im w h ink :
  0 ≤ w → getrgb E (BRAND_PRIMARY cfg) = Some ink →
  ellipse_image E im (mark_box w h) (BRAND_PRIMARY cfg)
  = inr (filled_ellipse E im (mark_box w h) ink).
Proof.
  intros Hw Hink. unfold ellipse_image, mark_box. rewrite Hink. msimpl.
  assert (0 ≤ 12 * w / 100) by (apply Z.div_pos; lia).
  replace (_ && _) with false; [done|].
  symmetry. apply andb_false_iff. right. apply orb_false_iff. split; apply Z.ltb_ge; lia.
Qed.

Lemma mark_drawn_shape im im' :
  mark_drawn cfg E im im' →
  im_mode im' = im_mode im ∧ width im' = width im ∧ height im' = height im.
Proof.
  intros (ink & _ & [->|(xy & f & Ht)]); [done|].
  unfold text_image in Ht. revert Ht. msimpl.
  destruct (getrgb E (BRAND_CREAM cfg)); [|done].
  destruct (render_text E _ xy "pd" _ f); [|done].
  intros [= <-]. done.
Qed.

Lemma logo_pasted_shape im im' :
  logo_pasted cfg W E im im' →
  im_mode im = M_RGBA ∧
  im_mode im' = im_mode im ∧ width im' = width im ∧ height im' = height im.
Proof.
  intros (b & opened & w & ratio & h & scaled & _ & _ & _ & _ & _ & _ & Hc).
  unfold alpha_composite_image in Hc.
  destruct (dest_must_be_nonnegative E && _); [done|].
  destruct (bool_decide (im_mode im = M_RGBA)) eqn:Hm; [|done].
  destruct (bool_decide (im_mode scaled = M_RGBA)); [|done].
  apply bool_decide_eq_true in Hm. simpl in Hc. injection Hc as <-. done.
Qed.

Lemma draw_mark_run l s im ink :
  heap s !! l = Some im → wf_image im → getrgb E (BRAND_PRIMARY cfg) = Some ink →
  ∃ im', mark_drawn cfg E im im' ∧
    draw_mark cfg E l s = (inr l, {| heap := <[l := im']> (heap s); outbox := outbox s |}).
Proof.
  intros Hl [Hw Hh] Hink. unfold draw_mark, ellipse. msimpl. rewrite Hl.
  rewrite int_scaled_12 by done.
  fold (mark_box (width im) (height im)).
  rewrite (ellipse_image_mark _ _ _ ink) by (done || lia).
  set (disc := filled_ellipse E im (mark_box (width im) (height im)) ink).
  match goal with
  | |- context [draw_pd ?c ?e ?d ?x ?y ?s1] =>
      destruct (draw_pd_cases d x y s1 disc) as [(e0 & ->)|(xy & f & im' & Ht & ->)]
  end.
  - cbn [heap target]. apply lookup_insert_eq.
  - exists disc. split; [|done]. exists ink. split; [done|]. by left.
  - exists im'. split.
    + exists ink. split; [done|]. right. eauto.
    + cbn [heap outbox target]. by rewrite insert_insert_eq.
Qed.

Lemma touches_refl l s : touches l s s.
Proof. done. Qed.

Lemma touches_trans l s1 s2 s3 : touches l s1 s2 → touches l s2 s3 → touches l s1 s3.
Proof. intros [H1 H2] [H3 H4]. split; [congruence|]. intros l0 Hne. rewrite H4, H2; done. Qed.

Lemma touches_insert l s im :
  touches l s {| heap := <[l := im]> (heap s); outbox := outbox s |}.
Proof. split; [done|]. intros l0 Hne. cbn [heap]. by rewrite lookup_insert_ne. Qed.

Lemma update_touches l f s r s' : update l f s = (r, s') → touches l s s'.
Proof.
  unfold update. msimpl. destruct (heap s !! l) as [im|]; [|intros [= _ <-]; apply touches_refl].
  destruct (f im); intros [= _ <-]; [apply touches_refl|apply touches_insert].
Qed.

Lemma draw_pd_touches d cx cy s r s' :
  draw_pd cfg E d cx cy s = (r, s') → touches (target d) s s'.
Proof.
  unfold draw_pd, draw_textsize, draw_text. msimpl.
  destruct (load_default E) as [e|f]; [intros [= _ <-]; apply touches_refl|].
  destruct (textsize E) as [measure|]; [|intros [= _ <-]; apply touches_refl].
  destruct (measure f "pd") as [tw th].
  destruct (int_truediv tw 2) as [e|hx]; [intros [= _ <-]; apply touches_refl|].
  destruct (int_sub_float cx hx) as [e|x]; [intros [= _ <-]; apply touches_refl|].
  destruct (int_truediv th 2) as [e|hy]; [intros [= _ <-]; apply touches_refl|].
  destruct (int_sub_float cy hy) as [e|y]; [intros [= _ <-]; apply touches_refl|].
  destruct (heap s !! target d) as [im|]; [|intros [= _ <-]; apply touches_refl].
  destruct (text_image E im (x, y) "pd" (BRAND_CREAM cfg) f);
    intros [= _ <-]; [apply touches_refl|apply touches_insert].
Qed.

Lemma draw_mark_touches l s r s' : draw_mark cfg E l s = (r, s') → touches l s s'.
Proof.
  unfold draw_mark. msimpl.
  destruct (heap s !! l) as [im|] eqn:Hl; [|intros [= _ <-]; apply touches_refl].
  destruct (int_scaled (width im) (literal 12 100)) as [e|rad];
    [intros [= _ <-]; apply touches_refl|].
  match goal with |- context [ellipse ?e ?d ?b ?c ?s0] => destruct (ellipse e d b c s0) as [[e1|[]] s1] eqn:Hell end.
  - intros [= _ <-]. by apply update_touches in Hell.
  - apply update_touches in Hell. cbn [target] in Hell.
    match goal with |- context [draw_pd ?c ?e ?d ?x ?y ?s0] => destruct (draw_pd c e d x y s0) as [[e2|[]] s2] eqn:Hpd end;
      apply draw_pd_touches in Hpd; cbn [target] in Hpd; intros [= _ <-].
    + by apply (touches_trans _ _ s1).
    + by apply (touches_trans _ _ s1).
Qed.

Lemma paste_logo_touches l s r s' : paste_logo cfg W E l s = (r, s') → touches l s s'.
Proof.
  destruct (heap s !! l) as [base|] eqn:Hl.
  - destruct (paste_logo_cases l s base Hl) as [(e & ->)|(im' & _ & ->)];
      intros [= _ <-]; [apply touches_refl|apply touches_insert].
  - unfold paste_logo, alpha_composite, open. msimpl.
    destruct (requests_get W (LOGO_URL cfg) 10) as [b|]; [|intros [= _ <-]; apply touches_refl].
    destruct (decode E b) as [opened|]; [|intros [= _ <-]; apply touches_refl].
    rewrite Hl. intros [= _ <-]; apply touches_refl.
Qed.


Lemma fresh_loc_new (s : state) l x : heap s !! l = Some x → l ≠ fresh (dom (heap s)).
Proof.
  intros Hl ->. apply (is_fresh (dom (heap s))). apply elem_of_dom. eauto.
Qed.

Lemma add_logo_or_mark_run img s im ink :
  heap s !! img = Some im → wf_image im → getrgb E (BRAND_PRIMARY cfg) = Some ink →
  ∃ im', (str_bool (LOGO_URL cfg) = true ∧ logo_pasted cfg W E im im' ∨
          mark_drawn cfg E im im') ∧
    add_logo_or_mark cfg W E img s
    = (inr (fresh (dom (heap s))),
       {| heap := <[fresh (dom (heap s)) := im']> (heap s); outbox := outbox s |}).
Proof.
  intros Hl Hwf Hink. unfold add_logo_or_mark, Image_copy. msimpl. rewrite Hl.
  set (l := fresh (dom (heap s))).
  set (s1 := {| heap := <[l := im]> (heap s); outbox := outbox s |}).
  assert (Hl1 : heap s1 !! l = Some im) by apply lookup_insert_eq.
  destruct (draw_mark_run l s1 im ink Hl1 Hwf Hink) as (im1 & Hm1 & Hrun1).
  destruct (paste_logo_cases l s1 im Hl1) as [(e & Hp)|(im' & Hp & Hprun)];
    subst s1; cbn [heap outbox] in *; rewrite ?insert_insert_eq in *;
    destruct (str_bool (LOGO_URL cfg)) eqn:Hurl; rewrite ?Hp, ?Hprun.
  - exists im1. split; [by right|]. exact Hrun1.
  - exists im1. split; [by right|]. exact Hrun1.
  - exists im'. split; [by left|]. done.
  - exists im1. split; [by right|]. exact Hrun1.
Qed.

Lemma add_logo_or_mark_touches img s :
  touches (fresh (dom (heap s))) s (snd (add_logo_or_mark cfg W E img s)).
Proof.
  unfold add_logo_or_mark, Image_copy. msimpl.
  destruct (heap s !! img) as [im|]; [|apply touches_refl].
  set (l := fresh (dom (heap s))).
  set (s1 := {| heap := <[l := im]> (heap s); outbox := outbox s |}).
  assert (H1 : touches l s s1) by apply touches_insert.
  destruct (str_bool (LOGO_URL cfg)).
  - destruct (paste_logo cfg W E l s1) as [[e|[l'|]] s2] eqn:Hp;
      pose proof (paste_logo_touches _ _ _ _ Hp) as H2.
    + destruct (draw_mark cfg E l s2) as [r s3] eqn:Hd.
      apply draw_mark_touches in Hd. cbn [snd].
      eapply touches_trans; [exact H1|]. eapply touches_trans; [exact H2|exact Hd].
    + cbn [snd]. by eapply touches_trans.
    + destruct (draw_mark cfg E l s2) as [r s3] eqn:Hd.
      apply draw_mark_touches in Hd. cbn [snd].
      eapply touches_trans; [exact H1|]. eapply touches_trans; [exact H2|exact Hd].
  - destruct (draw_mark cfg E l s1) as [r s3] eqn:Hd.
    apply draw_mark_touches in Hd. cbn [snd]. by eapply touches_trans.
Qed.

End mark.


(* ===================================================================== *)
(** * Prompts *)
(* ===================================================================== *)

Section strings.

Lemma startswith_spec p s : startswith p s = true ↔ ∃ q, s = p +:+ q.
Proof.
  revert s. induction p as [|a p IH]; intros s; simpl.
  - split; [intros _; by exists s|done].
  - destruct s as [|b s]; [split; [done|intros (q & [=])]|].
    destruct (Ascii.eqb_spec a b) as [->|Hne].
    + rewrite IH. split; intros (q & Hq); exists q; [by rewrite Hq|by injection Hq].
    + split; [done|]. intros (q & [= ? ?]). done.
Qed.

Lemma str_in_spec sub s : str_in sub s = true ↔ contains s sub.
Proof.
  unfold contains. split.
  - induction s as [|c s IH]; simpl; rewrite orb_true_iff.
    + intros [H|?]; [|done]. apply startswith_spec in H as (q & ->). by exists "", q.
    + intros [H|H].
      * apply startswith_spec in H as (q & ->). by exists "", q.
      * destruct (IH H) as (b & a & ->). by exists (String c b), a.
  - intros (b & a & ->). induction b as [|c b IH]; simpl.
    + destruct (sub +:+ a) eqn:Heq; simpl; rewrite orb_true_iff; left;
        apply startswith_spec; exists a; by rewrite Heq.
    + rewrite IH. apply orb_true_r.
Qed.

Lemma str_append_assoc a b c : (a +:+ b) +:+ c = a +:+ b +:+ c.
Proof.
  induction a as [|x a IH]; [done|].
  change (String x ((a +:+ b) +:+ c) = String x (a +:+ b +:+ c)). by rewrite IH.
Qed.

Lemma contains_middle a sub b : contains (a +:+ sub +:+ b) sub.
Proof. by exists a, b. Qed.

Lemma str_or_nonempty a b : b ≠ "" → str_or a b ≠ "".
Proof. unfold str_or. destruct a; simpl; done. Qed.

Lemma str_or_truthy a b : a ≠ "" → str_or a b = a.
Proof. unfold str_or. destruct a; simpl; done. Qed.

Lemma append_nonempty a b : a ≠ "" → a +:+ b ≠ "".
Proof. destruct a; simpl; done. Qed.

End strings.

(** Claim C8, as stated, fails for the [idea] command: its prompt does not
    depend on the arguments and does not contain the topic. *)
Lemma idea_prompt_omits_topic :
  str_join " " ["zebra"] = "zebra" ∧ "zebra" ≠ "" ∧
  idea_prompt ∈ PromptBuilder Idea ["zebra"] ∧
  ¬ contains idea_prompt "zebra".
Proof.
  split_and!; [done|done|apply list_elem_of_here|].
  rewrite <- str_in_spec. vm_compute. discriminate.
Qed.

(** Claim C8, amended.  For every non-empty topic, each prompt built for a
    [caption] or a [post] command contains the topic verbatim. *)
Theorem caption_and_post_prompts_contain_topic (args : list string) (k : kind) (p : string) :
  str_join " " args ≠ "" → k ≠ Idea → p ∈ PromptBuilder k args →
  contains p (str_join " " args).
Proof.
  intros Hne Hk Hp. destruct k; [done| |]; simpl in Hp.
  - apply list_elem_of_singleton in Hp as ->.
    unfold caption_topic, caption_prompt. rewrite str_or_truthy by done.
    rewrite <- str_append_assoc. apply contains_middle.
  - unfold post_topic in Hp. rewrite str_or_truthy in Hp by done.
    apply elem_of_cons in Hp as [->|Hp]; [|apply list_elem_of_singleton in Hp as ->].
    + unfold post_cap_prompt. rewrite <- str_append_assoc. apply contains_middle.
    + unfold post_img_prompt. rewrite <- str_append_assoc. apply contains_middle.
Qed.

Lemma caption_and_post_prompts_contain_topic_witness :
  contains (post_img_prompt "ship daily") "ship daily".
Proof.
  apply (caption_and_post_prompts_contain_topic ["ship"; "daily"] Post
           (post_img_prompt "ship daily")).
  - discriminate.
  - discriminate.
  - apply list_elem_of_further, list_elem_of_here.
Defined.

(** Claim C9.  Without arguments the topic is a built-in default; for all
    arguments the topic and every prompt are non-empty, and whenever the
    joined arguments are empty the default is used.  The prompts are total
    functions of the arguments. *)
Theorem missing_topic_falls_back :
  caption_topic [] = "a tiny workflow habit that compounds" ∧
  post_topic [] = "one simple framework to ship daily" ∧
  ∀ args : list string,
    caption_topic args ≠ "" ∧ post_topic args ≠ "" ∧
    (str_join " " args = "" →
     caption_topic args = "a tiny workflow habit that compounds" ∧
     post_topic args = "one simple framework to ship daily") ∧
    ∀ k p, p ∈ PromptBuilder k args → p ≠ "".
Proof.
  split; [done|]. split; [done|]. intros args.
  assert (HV : VOICE ≠ "") by (vm_compute; discriminate).
  assert (HS : STYLE_PROMPT ≠ "") by (vm_compute; discriminate).
  split_and!.
  - by apply str_or_nonempty.
  - by apply str_or_nonempty.
  - unfold caption_topic, post_topic. intros ->. done.
  - intros k p Hp. destruct k; simpl in Hp.
    + apply list_elem_of_singleton in Hp as ->. by apply append_nonempty.
    + apply list_elem_of_singleton in Hp as ->. by apply append_nonempty.
    + apply elem_of_cons in Hp as [->|Hp]; [|apply list_elem_of_singleton in Hp as ->];
        by apply append_nonempty.
Qed.

(* ===================================================================== *)
(** * The generation clients *)
(* ===================================================================== *)

Section clients.
Context (cfg : Config) (C : Codecs) (W : World) (E : engine).







(** [generated_image], step by step. *)
Lemma generated_image_unfold prompt size :
  generated_image cfg C W E prompt size =
  match fetch_json C W (image_request cfg prompt size) 120 with
  | inl e => inl e
  | inr out =>
      match image_b64 out with
      | inl e => inl e
      | inr (JStr b64) =>
          if isascii b64 then
            match b64decode C b64 with
            | None => inl binascii_Error
            | Some payload =>
                match decode E payload with
                | None => inl (if truncated E payload then OSError
                               else UnidentifiedImageError)
                | Some im0 => inr (convert E M_RGBA im0)
                end
            end
          else inl ValueError
      | inr _ => inl TypeError
      end
  end.
Proof.
  unfold generated_image. msimpl.
  destruct (fetch_json C W _ 120) as [e1|out]; [done|].
  destruct (image_b64 out) as [e2|v]; [done|].
  unfold b64decode_value, open. destruct v; try done.
  destruct (isascii s); [|done].
  destruct (b64decode C s) as [payload|]; [|done]. msimpl.
  destruct (decode E payload); done.
Qed.

(** What a returned image was decoded from. *)
Lemma generated_image_payload prompt size im :
  generated_image cfg C W E prompt size = inr im →
  ∃ out b64 payload im0,
    fetch_json C W (image_request cfg prompt size) 120 = inr out ∧
    image_b64 out = inr (JStr b64) ∧ isascii b64 = true ∧
    b64decode C b64 = Some payload ∧ decode E payload = Some im0 ∧
    im = convert E M_RGBA im0.
Proof.
  rewrite generated_image_unfold.
  destruct (fetch_json C W _ 120) as [e1|out] eqn:Hf; [done|].
  destruct (image_b64 out) as [e2|v] eqn:Hv; [done|].
  destruct v; try done.
  destruct (isascii s) eqn:Ha; [|done].
  destruct (b64decode C s) as [payload|] eqn:Hb; [|done].
  destruct (decode E payload) as [im0|] eqn:Hd; [|done].
  intros [= <-]. by exists out, s, payload, im0.
Qed.

Lemma generated_image_shape prompt size im :
  generated_image cfg C W E prompt size = inr im →
  im_mode im = M_RGBA ∧ ∃ b im0, decode E b = Some im0 ∧ im = convert E M_RGBA im0.
Proof.
  intros Hg. apply generated_image_payload in Hg
    as (out & b64 & payload & im0 & _ & _ & _ & _ & Hd & ->).
  split; [done|]. eauto.
Qed.

Lemma openai_image_unfold prompt size s :
  openai_image cfg C W E prompt size s =
  match generated_image cfg C W E prompt size with
  | inl e => (inl e, s)
  | inr im => (inr (fresh (dom (heap s))),
               {| heap := <[fresh (dom (heap s)) := im]> (heap s); outbox := outbox s |})
  end.
Proof. unfold openai_image. msimpl. by destruct (generated_image _ _ _ _ _ _). Qed.

End clients.




(* ===================================================================== *)
(** * Properties of the brand mark *)
(* ===================================================================== *)

(** Claim C1, as stated, fails.  [draw.ellipse(..., fill=BRAND_PRIMARY)] is
    outside both [try] blocks: with a brand primary colour Pillow does not
    know and no logo configured, [add_logo_or_mark] raises [ValueError]. *)
Lemma unknown_colour_makes_add_logo_or_mark_raise :
  LOGO_URL Example.miscoloured = "" ∧
  getrgb Example.pillow (BRAND_PRIMARY Example.miscoloured) = None ∧
  fst (add_logo_or_mark Example.miscoloured Example.online Example.pillow 1%positive
         Example.studio) = inl ValueError.
Proof. split; [reflexivity|]. split; [reflexivity|]. reflexivity. Qed.

(** Claim C1, amended.  Provided the brand primary colour is one Pillow can
    resolve, [add_logo_or_mark] never raises: for every image object, every
    configured logo URL and every answer of the network it returns an image.
    When the logo cannot be fetched or its payload is not an image, the image
    returned carries the drawn fallback mark. *)
Theorem add_logo_or_mark_never_raises (cfg : Config) (W : World) (E : engine)
    (s : state) (img : loc) (im : image) :
  heap s !! img = Some im → wf_image im → is_Some (getrgb E (BRAND_PRIMARY cfg)) →
  (∃ l s' im', add_logo_or_mark cfg W E img s = (inr l, s') ∧
               heap s' !! l = Some im' ∧
               (logo_pasted cfg W E im im' ∨ mark_drawn cfg E im im')) ∧
  (requests_get W (LOGO_URL cfg) 10 = None ∨
   (∃ b, requests_get W (LOGO_URL cfg) 10 = Some b ∧ decode E b = None) →
   ∃ l s' im', add_logo_or_mark cfg W E img s = (inr l, s') ∧
               heap s' !! l = Some im' ∧ mark_drawn cfg E im im').
Proof.
  intros Hl Hwf [ink Hink].
  destruct (add_logo_or_mark_run cfg W E img s im ink Hl Hwf Hink) as (im' & Hcase & Hrun).
  split.
  - eexists _, _, im'. split; [exact Hrun|]. split; [apply lookup_insert_eq|].
    destruct Hcase as [[_ Hp]|Hm]; [by left|by right].
  - intros Hfail. eexists _, _, im'. split; [exact Hrun|]. split; [apply lookup_insert_eq|].
    destruct Hcase as [[_ (b & opened & w & ratio & h & scaled & Hget & Hdec & _)]|Hm]; [|done].
    destruct Hfail as [Hnone|(b' & Hget' & Hnone)]; congruence.
Qed.

Lemma add_logo_or_mark_never_raises_witness :
  (∃ l s' im',
     add_logo_or_mark (Example.branded "https://example.org/index.html") Example.online
       Example.pillow 1%positive Example.studio = (inr l, s') ∧
     heap s' !! l = Some im' ∧
     mark_drawn (Example.branded "https://example.org/index.html") Example.pillow
       Example.canvas im').
Proof.
  apply (add_logo_or_mark_never_raises
           (Example.branded "https://example.org/index.html") Example.online Example.pillow
           Example.studio 1%positive Example.canvas).
  - reflexivity.
  - unfold wf_image. simpl. lia.
  - eexists. reflexivity.
  - right. exists "<html>"%string. split; reflexivity.
Defined.

(** Claim C10.  [add_logo_or_mark] works on a copy: whatever the outcome of
    the call, the image object it was given, and every other object of the
    store, holds the image it held before; nothing is sent; the object
    returned is not the one received. *)
Theorem add_logo_or_mark_keeps_input (cfg : Config) (W : World) (E : engine)
    (s : state) (img : loc) (im : image) :
  heap s !! img = Some im →
  let run := add_logo_or_mark cfg W E img s in
  heap (snd run) !! img = Some im ∧
  (∀ l x, heap s !! l = Some x → heap (snd run) !! l = Some x) ∧
  outbox (snd run) = outbox s ∧
  (∀ l, fst run = inr l → l ≠ img).
Proof.
  intros Hl run.
  destruct (add_logo_or_mark_touches cfg W E img s) as [Hout Hframe]. fold run in Hout, Hframe.
  assert (Hkeep : ∀ l x, heap s !! l = Some x → heap (snd run) !! l = Some x).
  { intros l x Hx. rewrite Hframe; [done|]. by eapply fresh_loc_new. }
  split_and!; [by apply Hkeep|done|done|].
  intros l Hrun ->. subst run. revert Hrun.
  unfold add_logo_or_mark, Image_copy. msimpl. rewrite Hl.
  set (l := fresh (dom (heap s))).
  assert (Hne : img ≠ l) by (by eapply fresh_loc_new).
  destruct (str_bool (LOGO_URL cfg)).
  - match goal with |- context [paste_logo ?c ?w ?e ?l0 ?s0] =>
      destruct (paste_logo_cases c w e l0 s0 im) as [(e0 & ->)|(im' & _ & ->)] end.
    + apply lookup_insert_eq.
    + unfold draw_mark. msimpl. rewrite lookup_insert_eq.
      destruct (int_scaled _ _); [done|].
      destruct (ellipse _ _ _ _ _) as [[?|[]] ?]; [done|].
      destruct (draw_pd _ _ _ _ _ _) as [[?|[]] ?]; intros [= ?]; done.
    + intros [= ?]. done.
  - unfold draw_mark. msimpl. rewrite lookup_insert_eq.
    destruct (int_scaled _ _); [done|].
    destruct (ellipse _ _ _ _ _) as [[?|[]] ?]; [done|].
    destruct (draw_pd _ _ _ _ _ _) as [[?|[]] ?]; intros [= ?]; done.
Qed.

Lemma add_logo_or_mark_keeps_input_witness :
  heap (snd (add_logo_or_mark (Example.branded "https://example.org/logo.png") Example.online
               Example.pillow 1%positive Example.studio)) !! 1%positive
  = Some Example.canvas.
Proof.
  refine (proj1 (add_logo_or_mark_keeps_input
                   (Example.branded "https://example.org/logo.png") Example.online
                   Example.pillow Example.studio 1%positive Example.canvas _)).
  reflexivity.
Defined.

(** Claim C2, as stated, fails.  For a 1024 x 1024 image and no logo URL the
    radius is [int(1024 * 0.12) = 122], the ellipse drawn is the one of radius
    122 centred at (862, 862), and the image differs from the one a disc of
    radius 123 centred at (861, 861) would give. *)
Lemma fallback_mark_1024_is_not_radius_123 :
  let run := add_logo_or_mark Example.plain Example.online Example.pillow 1%positive
               Example.studio in
  let ink := Pixel 47 52 53 255 in
  LOGO_URL Example.plain = "" ∧
  width Example.canvas = 1024 ∧ height Example.canvas = 1024 ∧
  int_scaled 1024 (literal 12 100) = inr 122 ∧
  ∃ l im', fst run = inr l ∧ heap (snd run) !! l = Some im' ∧
    (∀ x y, px im' x y = px (filled_ellipse Example.pillow Example.canvas
                               (862 - 122, 862 - 122, 862 + 122, 862 + 122) ink) x y) ∧
    ¬ (∀ x y, px im' x y = px (filled_ellipse Example.pillow Example.canvas
                                 (861 - 123, 861 - 123, 861 + 123, 861 + 123) ink) x y).
Proof.
  intros run ink. split_and!; try reflexivity.
  exists 2%positive. eexists. split_and!; try reflexivity.
  intros H. specialize (H 739 862). vm_compute in H. discriminate H.
Qed.

(** Claim C2, amended.  With no logo URL the image returned carries the mark:
    the ellipse inscribed in [mark_box], whose radius [r] is 12% of the width
    rounded down to an integer and whose right and bottom edges lie 40 pixels
    inside those of the image.  For 1024 x 1024 the radius is 122 and the
    centre (862, 862). *)
Theorem fallback_mark_geometry (cfg : Config) (W : World) (E : engine)
    (s : state) (img : loc) (im : image) :
  LOGO_URL cfg = "" → heap s !! img = Some im → wf_image im →
  is_Some (getrgb E (BRAND_PRIMARY cfg)) →
  (∃ l s' im', add_logo_or_mark cfg W E img s = (inr l, s') ∧
               heap s' !! l = Some im' ∧ mark_drawn cfg E im im') ∧
  (let r := 12 * width im / 100 in
   mark_box (width im) (height im)
   = (width im - r - 40 - r, height im - r - 40 - r, width im - 40, height im - 40) ∧
   100 * r ≤ 12 * width im < 100 * r + 100) ∧
  (width im = 1024 → height im = 1024 →
   mark_box (width im) (height im) = (862 - 122, 862 - 122, 862 + 122, 862 + 122)).
Proof.
  intros Hurl Hl Hwf [ink Hink].
  destruct (add_logo_or_mark_run cfg W E img s im ink Hl Hwf Hink) as (im' & Hcase & Hrun).
  split_and!.
  - eexists _, _, im'. split; [exact Hrun|]. split; [apply lookup_insert_eq|].
    destruct Hcase as [[Hb _]|Hm]; [|done]. rewrite Hurl in Hb. done.
  - cbv zeta. split.
    + unfold mark_box. cbv zeta.
      replace (width im - 12 * width im / 100 - 40 + 12 * width im / 100)
        with (width im - 40) by lia.
      replace (height im - 12 * width im / 100 - 40 + 12 * width im / 100)
        with (height im - 40) by lia.
      reflexivity.
    + pose proof (Z.div_mod (12 * width im) 100 ltac:(lia)).
      pose proof (Z.mod_pos_bound (12 * width im) 100 ltac:(lia)). lia.
  - intros -> ->. reflexivity.
Qed.

Lemma fallback_mark_geometry_witness :
  mark_box (width Example.canvas) (height Example.canvas) = (740, 740, 984, 984) ∧
  ∃ l s' im',
    add_logo_or_mark Example.plain Example.online Example.pillow 1%positive Example.studio
    = (inr l, s') ∧
    heap s' !! l = Some im' ∧ mark_drawn Example.plain Example.pillow Example.canvas im'.
Proof.
  assert (Hw : wf_image Example.canvas) by (unfold wf_image; simpl; lia).
  split.
  - refine (proj2 (proj2 (fallback_mark_geometry Example.plain Example.online Example.pillow
                            Example.studio 1%positive Example.canvas _ _ Hw _)) _ _);
      try reflexivity. eexists; reflexivity.
  - refine (proj1 (fallback_mark_geometry Example.plain Example.online Example.pillow
                     Example.studio 1%positive Example.canvas _ _ Hw _));
      try reflexivity. eexists; reflexivity.
Defined.

(** Claim C6, as stated, fails.  A logo of 2000 x 10 pixels is fetched and
    decoded, but 16% of 1024 columns leaves it [int(10 * (163 / 2000)) = 0]
    rows, [resize] refuses the empty target, and the image returned carries
    the drawn mark and no logo. *)
Lemma flat_logo_is_replaced_by_mark :
  let cfg := Example.branded "https://example.org/banner.png" in
  let run := add_logo_or_mark cfg Example.online Example.pillow 1%positive Example.studio in
  requests_get Example.online (LOGO_URL cfg) 10 = Some "banner"%string ∧
  decode Example.pillow "banner" = Some Example.banner ∧
  int_scaled (width Example.canvas) (literal 16 100) = inr 163 ∧
  (ratio ← int_truediv 163 (width Example.banner); int_scaled (height Example.banner) ratio)
  = inr 0 ∧
  resize Example.pillow (convert Example.pillow M_RGBA Example.banner) (163, 0) = inl ValueError ∧
  ∃ l im', fst run = inr l ∧ heap (snd run) !! l = Some im' ∧
    mark_drawn cfg Example.pillow Example.canvas im' ∧
    ¬ logo_pasted cfg Example.online Example.pillow Example.canvas im'.
Proof.
  intros cfg run. split; [reflexivity|]. split; [reflexivity|].
  split; [vm_compute; reflexivity|]. split; [vm_compute; reflexivity|].
  split; [reflexivity|].
  exists 2%positive. eexists. split; [reflexivity|]. split; [reflexivity|]. split.
  - exists (Pixel 47 52 53 255). split; [reflexivity|]. left. reflexivity.
  - intros (b & opened & w & ratio & h & scaled & Hget & Hdec & Hw & Hr & Hh & Hs & _).
    cbv in Hget. injection Hget as <-.
    cbv in Hdec. injection Hdec as <-.
    vm_compute in Hw. injection Hw as <-.
    vm_compute in Hr. injection Hr as <-.
    vm_compute in Hh. injection Hh as <-.
    unfold resize in Hs. cbn in Hs. discriminate Hs.
Qed.

(** Claim C6, amended.  When the logo is fetched and decoded, the base image
    is RGBA, the scaled logo has at least one column and one row and its
    destination is acceptable to [alpha_composite], the image returned is the
    base image with the logo blended in over the rectangle that is
    [w = 16 * width / 100] (rounded down) columns wide,
    [h = int(logo.height * (w / logo.width))] rows high, and ends 40 pixels
    inside the right and bottom edges; every other pixel is unchanged. *)
Theorem logo_is_scaled_and_anchored (cfg : Config) (W : World) (E : engine)
    (s : state) (img : loc) (im : image) (b : bytes) (opened : image)
    (ratio : float) (h : Z) :
  str_bool (LOGO_URL cfg) = true →
  requests_get W (LOGO_URL cfg) 10 = Some b → decode E b = Some opened →
  heap s !! img = Some im → wf_image im → im_mode im = M_RGBA →
  let w := 16 * width im / 100 in
  int_truediv w (width opened) = inr ratio →
  int_scaled (height opened) ratio = inr h →
  1 ≤ w → 1 ≤ h →
  (dest_must_be_nonnegative E = true → 0 ≤ width im - w - 40 ∧ 0 ≤ height im - h - 40) →
  ∃ l s' im',
    add_logo_or_mark cfg W E img s = (inr l, s') ∧ heap s' !! l = Some im' ∧
    im_mode im' = M_RGBA ∧ width im' = width im ∧ height im' = height im ∧
    100 * w ≤ 16 * width im < 100 * w + 100 ∧
    ∀ x y,
      px im' x y =
      if (width im - 40 - w <=? x) && (x <? width im - 40) &&
         (height im - 40 - h <=? y) && (y <? height im - 40)
      then blend E (px im x y)
             (resample E (convert E M_RGBA opened) w h
                (x - (width im - 40 - w)) (y - (height im - 40 - h)))
      else px im x y.
Proof.
  intros Hurl Hget Hdec Hl Hwf Hmode w Hr Hh Hw1 Hh1 Hdest.
  unfold add_logo_or_mark, Image_copy, paste_logo, alpha_composite, open. msimpl.
  rewrite Hl, Hurl, Hget, Hdec. cbn [heap].
  set (l := fresh (dom (heap s))). rewrite !lookup_insert_eq.
  rewrite int_scaled_16 by apply Hwf. fold w.
  change (width (convert E M_RGBA opened)) with (width opened).
  change (height (convert E M_RGBA opened)) with (height opened).
  rewrite Hr, Hh. unfold resize.
  replace ((w <? 1) || (h <? 1)) with false
    by (symmetry; apply orb_false_iff; split; apply Z.ltb_ge; lia).
  cbn [height width]. unfold alpha_composite_image. cbn [fst snd im_mode].
  replace (dest_must_be_nonnegative E && _) with false.
  2:{ symmetry. destruct (dest_must_be_nonnegative E); [|done]. simpl.
      apply Z.ltb_ge. destruct Hdest; [done|]. lia. }
  rewrite Hmode. cbn [bool_decide decide_rel andb]. 
  rewrite !bool_decide_eq_true_2 by done. cbn [andb].
  eexists _, _, _. split; [reflexivity|]. cbn [heap]. rewrite insert_insert_eq, lookup_insert_eq.
  split; [reflexivity|]. cbn [im_mode width height px]. split_and!; try done.
  - pose proof (Z.div_mod (16 * width im) 100 ltac:(lia)).
    pose proof (Z.mod_pos_bound (16 * width im) 100 ltac:(lia)). lia.
  - pose proof (Z.div_mod (16 * width im) 100 ltac:(lia)).
    pose proof (Z.mod_pos_bound (16 * width im) 100 ltac:(lia)). lia.
  - intros x y. unfold composited. cbn [width height px].
    replace (width im - w - 40 + w) with (width im - 40) by lia.
    replace (height im - h - 40 + h) with (height im - 40) by lia.
    replace (width im - w - 40) with (width im - 40 - w) by lia.
    replace (height im - h - 40) with (height im - 40 - h) by lia.
    reflexivity.
Qed.

Lemma logo_is_scaled_and_anchored_witness :
  ∃ l s' im',
    add_logo_or_mark (Example.branded "https://example.org/logo.png") Example.online
      Example.pillow 1%positive Example.studio = (inr l, s') ∧
    heap s' !! l = Some im' ∧
    im_mode im' = M_RGBA ∧ width im' = 1024 ∧ height im' = 1024 ∧
    100 * 163 ≤ 16 * 1024 < 100 * 163 + 100 ∧
    ∀ x y,
      px im' x y =
      if (1024 - 40 - 163 <=? x) && (x <? 1024 - 40) &&
         (1024 - 40 - 81 <=? y) && (y <? 1024 - 40)
      then blend Example.pillow (px Example.canvas x y)
             (resample Example.pillow (convert Example.pillow M_RGBA Example.logo) 163 81
                (x - (1024 - 40 - 163)) (y - (1024 - 40 - 81)))
      else px Example.canvas x y.
Proof.
  refine (logo_is_scaled_and_anchored
            (Example.branded "https://example.org/logo.png") Example.online Example.pillow
            Example.studio 1%positive Example.canvas "logo" Example.logo
            (S754_finite false 7340867392613908 (-54)) 81 _ _ _ _ _ _ _ _ _ _ _);
    try reflexivity.
  - unfold wf_image; simpl; lia.
  - vm_compute. discriminate.
  - vm_compute. discriminate.
  - intros H. discriminate H.
Defined.

(* ===================================================================== *)
(** * The pipeline *)
(* ===================================================================== *)

Section shape.
Context (cfg : Config) (W : World) (E : engine).

Lemma same_shape_refl im : same_shape im im.
Proof. done. Qed.

Lemma same_shape_trans a b c : same_shape a b → same_shape b c → same_shape a c.
Proof. unfold same_shape. intros (? & ? & ?) (? & ? & ?). split_and!; congruence. Qed.

Lemma ellipse_image_shape im b colour im' :
  ellipse_image E im b colour = inr im' → same_shape im im'.
Proof.
  unfold ellipse_image. destruct b as [[[x0 y0] x1] y1]. msimpl.
  destruct (getrgb E colour); [|done]. destruct (_ && _); [done|]. intros [= <-]. done.
Qed.

Lemma text_image_shape im xy text colour f im' :
  text_image E im xy text colour f = inr im' → same_shape im im'.
Proof.
  unfold text_image. msimpl. destruct (getrgb E colour); [|done].
  destruct (render_text E _ _ _ _ _); [|done]. intros [= <-]. done.
Qed.

Lemma alpha_composite_image_shape im overlay dest im' :
  alpha_composite_image E im overlay dest = inr im' → same_shape im im'.
Proof.
  unfold alpha_composite_image. destruct (_ && _); [done|].
  destruct (_ && _); [|done]. intros [= <-]. done.
Qed.

(** An in-place update that keeps the shape of the image it is applied to. *)
Lemma update_shape l f s r s' im :
  (∀ x y, f x = inr y → same_shape x y) →
  heap s !! l = Some im → update l f s = (r, s') →
  ∃ im', heap s' !! l = Some im' ∧ same_shape im im'.
Proof.
  intros Hf Hl. unfold update. msimpl. rewrite Hl.
  destruct (f im) as [e|im'] eqn:Hfim; intros [= _ <-].
  - exists im. done.
  - exists im'. split; [apply lookup_insert_eq|by eapply Hf].
Qed.

Lemma draw_pd_shape d cx cy s r s' im :
  heap s !! target d = Some im → draw_pd cfg E d cx cy s = (r, s') →
  ∃ im', heap s' !! target d = Some im' ∧ same_shape im im'.
Proof.
  intros Hl.
  destruct (draw_pd_cases cfg E d cx cy s im Hl) as [(e & ->)|(xy & f & im' & Ht & ->)];
    intros [= _ <-].
  - exists im. done.
  - exists im'. split; [apply lookup_insert_eq|by eapply text_image_shape].
Qed.

Lemma draw_mark_shape l s r s' im :
  heap s !! l = Some im → draw_mark cfg E l s = (r, s') →
  ∃ im', heap s' !! l = Some im' ∧ same_shape im im'.
Proof.
  intros Hl. unfold draw_mark. msimpl. rewrite Hl.
  destruct (int_scaled (width im) (literal 12 100)) as [e|rad];
    [intros [= _ <-]; exists im; done|].
  match goal with |- context [ellipse ?e ?d ?b ?c ?s0] =>
    destruct (ellipse e d b c s0) as [[e1|[]] s1] eqn:Hell end;
    (eapply update_shape in Hell as (im1 & Hl1 & Hs1);
       [|intros x y; apply ellipse_image_shape|exact Hl]).
  - intros [= _ <-]. eauto.
  - cbn [target] in Hl1.
    match goal with |- context [draw_pd ?c ?e ?d ?x ?y ?s0] =>
      destruct (draw_pd c e d x y s0) as [[e2|[]] s2] eqn:Hpd end;
      (eapply draw_pd_shape in Hpd as (im2 & Hl2 & Hs2); [|exact Hl1]);
      intros [= _ <-]; exists im2; (split; [done|by eapply same_shape_trans]).
Qed.

Lemma paste_logo_shape l s r s' im :
  heap s !! l = Some im → paste_logo cfg W E l s = (r, s') →
  ∃ im', heap s' !! l = Some im' ∧ same_shape im im'.
Proof.
  intros Hl.
  destruct (paste_logo_cases cfg W E l s im Hl) as [(e & ->)|(im' & Hp & ->)];
    intros [= _ <-].
  - exists im. done.
  - exists im'. split; [apply lookup_insert_eq|].
    destruct Hp as (? & ? & ? & ? & ? & ? & _ & _ & _ & _ & _ & _ & Hc).
    by eapply alpha_composite_image_shape.
Qed.

Lemma add_logo_or_mark_shape img s l s' im :
  heap s !! img = Some im → add_logo_or_mark cfg W E img s = (inr l, s') →
  ∃ im', heap s' !! l = Some im' ∧ same_shape im im'.
Proof.
  intros Hl. unfold add_logo_or_mark, Image_copy. msimpl. rewrite Hl.
  set (l0 := fresh (dom (heap s))).
  set (s1 := {| heap := <[l0 := im]> (heap s); outbox := outbox s |}).
  assert (Hl1 : heap s1 !! l0 = Some im) by apply lookup_insert_eq.
  destruct (str_bool (LOGO_URL cfg)).
  - destruct (paste_logo cfg W E l0 s1) as [[e|[l'|]] s2] eqn:Hp.
    + eapply paste_logo_shape in Hp as (im2 & Hl2 & Hs2); [|exact Hl1].
      destruct (draw_mark cfg E l0 s2) as [[e3|l3] s3] eqn:Hd; [done|].
      intros [= <- <-].
      assert (l3 = l0) as ->.
      { revert Hd. unfold draw_mark. msimpl. rewrite Hl2. destruct (int_scaled _ _); [done|].
        destruct (ellipse _ _ _ _ _) as [[?|[]] ?]; [done|].
        destruct (draw_pd _ _ _ _ _ _) as [[?|[]] ?]; intros [= ? ?]; done. }
      eapply draw_mark_shape in Hd as (im3 & Hl3 & Hs3); [|exact Hl2].
      exists im3. split; [done|by eapply same_shape_trans].
    + destruct (paste_logo_cases cfg W E l0 s1 im Hl1) as [(e & Hr)|(im' & _ & Hr)];
        rewrite Hr in Hp; [done|]. injection Hp as <- <-.
      intros [= <- <-].
      eapply paste_logo_shape in Hr as (im2 & Hl2 & Hs2); [|exact Hl1]. eauto.
    + destruct (paste_logo_cases cfg W E l0 s1 im Hl1) as [(e & Hr)|(im' & _ & Hr)];
        rewrite Hr in Hp; done.
  - destruct (draw_mark cfg E l0 s1) as [[e3|l3] s3] eqn:Hd; [done|].
    intros [= <- <-].
    assert (l3 = l0) as ->.
    { revert Hd. unfold draw_mark. msimpl. rewrite Hl1. destruct (int_scaled _ _); [done|].
      destruct (ellipse _ _ _ _ _) as [[?|[]] ?]; [done|].
      destruct (draw_pd _ _ _ _ _ _) as [[?|[]] ?]; intros [= ? ?]; done. }
    eapply draw_mark_shape in Hd as (im3 & Hl3 & Hs3); [|exact Hl1]. eauto.
Qed.

End shape.

Section pipeline.
Context (cfg : Config) (C : Codecs) (W : World) (E : engine).


(** [post], step by step. *)
Lemma post_unfold args s :
  post cfg C W E args s =
  match openai_chat cfg C W (post_cap_prompt (post_topic args)) default_model with
  | inl e => (inl e, s)
  | inr caption_text =>
      match generated_image cfg C W E (post_img_prompt (post_topic args)) default_size with
      | inl e => (inl e, s)
      | inr im =>
          let l := fresh (dom (heap s)) in
          match add_logo_or_mark cfg W E l
                  {| heap := <[l := im]> (heap s); outbox := outbox s |} with
          | (inl e, s2) => (inl e, s2)
          | (inr l2, s2) =>
              match heap s2 !! l2 with
              | None => (inl AttributeError, s2)
              | Some im' =>
                  match save_png E im' with
                  | inl e => (inl e, s2)
                  | inr buf =>
                      (inr (),
                       {| heap := heap s2;
                          outbox := outbox s2 ++
                                    [Photo buf (caption_text +:+ LF +:+ LF +:+ HASHTAGS)] |})
                  end
              end
          end
      end
  end.
Proof.
  unfold post, Image_save_png, reply_photo. msimpl.
  destruct (openai_chat cfg C W _ default_model) as [e|cap]; [done|].
  rewrite openai_image_unfold.
  destruct (generated_image cfg C W E _ default_size) as [e|im]; [done|].
  cbv zeta.
  destruct (add_logo_or_mark cfg W E _ _) as [[e|l2] s2]; [done|].
  destruct (heap s2 !! l2) as [im'|]; [|done].
  destruct (save_png E im'); done.
Qed.

Lemma caption_unfold args s :
  caption cfg C W args s =
  match openai_chat cfg C W (caption_prompt (caption_topic args)) default_model with
  | inl e => (inl e, s)
  | inr text =>
      (inr (), {| heap := heap s;
                  outbox := outbox s ++ [Text (text +:+ LF +:+ LF +:+ HASHTAGS)] |})
  end.
Proof.
  unfold caption, reply_text. msimpl.
  by destruct (openai_chat cfg C W _ default_model).
Qed.

End pipeline.

(** Claim C4.  When the text service returns [text], [caption] sends exactly
    one message, [text] followed by a blank line and the constant [HASHTAGS];
    for the text of the scenario this is the string the specification
    gives. *)
Theorem caption_appends_hashtags_once (cfg : Config) (C : Codecs) (W : World)
    (args : list string) (s : state) (text : string) :
  openai_chat cfg C W (caption_prompt (caption_topic args)) default_model = inr text →
  caption cfg C W args s
  = (inr (), {| heap := heap s;
                outbox := outbox s ++ [Text (text +:+ LF +:+ LF +:+ HASHTAGS)] |}) ∧
  (text = "Ship something small today. practical > perfect." →
   text +:+ LF +:+ LF +:+ HASHTAGS
   = "Ship something small today. practical > perfect." +:+ LF +:+ LF +:+
     "#plaintextdaily #internetfieldnotes #practicaloverperfect #makerhabits #shipdaily #minimaldesign").
Proof.
  intros Hchat. split.
  - by rewrite caption_unfold, Hchat.
  - intros ->. reflexivity.
Qed.

Lemma caption_appends_hashtags_once_witness :
  caption Example.plain Example.codecs Example.online ["plaintext.daily"] Example.studio
  = (inr (),
     {| heap := heap Example.studio;
        outbox := [Text ("Ship something small today. practical > perfect." +:+ LF +:+ LF +:+
                         "#plaintextdaily #internetfieldnotes #practicaloverperfect #makerhabits #shipdaily #minimaldesign")] |}).
Proof.
  refine (proj1 (caption_appends_hashtags_once Example.plain Example.codecs Example.online
                   ["plaintext.daily"] Example.studio
                   "Ship something small today. practical > perfect." _)).
  vm_compute. reflexivity.
Defined.




(** Claim C5.  The image [openai_image] creates is RGBA; [add_logo_or_mark]
    applied to an RGBA image returns an RGBA image on the logo path and on
    the fallback path alike, and does return one; every photo [post] sends
    encodes an RGBA image. *)
Theorem image_step_is_RGBA (cfg : Config) (C : Codecs) (W : World) (E : engine) :
  (∀ prompt size s l s',
     openai_image cfg C W E prompt size s = (inr l, s') →
     ∃ im, heap s' !! l = Some im ∧ im_mode im = M_RGBA) ∧
  (∀ s img im l s',
     heap s !! img = Some im → im_mode im = M_RGBA →
     add_logo_or_mark cfg W E img s = (inr l, s') →
     ∃ im', heap s' !! l = Some im' ∧ im_mode im' = M_RGBA) ∧
  (∀ s img im,
     heap s !! img = Some im → im_mode im = M_RGBA → wf_image im →
     is_Some (getrgb E (BRAND_PRIMARY cfg)) →
     ∃ l s' im', add_logo_or_mark cfg W E img s = (inr l, s') ∧
                 heap s' !! l = Some im' ∧ im_mode im' = M_RGBA ∧
                 (logo_pasted cfg W E im im' ∨ mark_drawn cfg E im im')) ∧
  (∀ args s s',
     post cfg C W E args s = (inr (), s') →
     ∃ im caption_text,
       outbox s' = outbox s ++ [Photo (encode_png E im) caption_text] ∧
       im_mode im = M_RGBA).
Proof.
  split_and!.
  - intros prompt size s l s'. rewrite openai_image_unfold.
    destruct (generated_image cfg C W E prompt size) as [e|im] eqn:Hg; [done|].
    intros [= <- <-]. exists im. split; [apply lookup_insert_eq|].
    by apply generated_image_shape in Hg as [? _].
  - intros s img im l s' Hl Hm Hrun.
    destruct (add_logo_or_mark_shape cfg W E img s l s' im Hl Hrun) as (im' & Hl' & Hs & _).
    exists im'. split; [done|congruence].
  - intros s img im Hl Hm Hwf [ink Hink].
    destruct (add_logo_or_mark_run cfg W E img s im ink Hl Hwf Hink) as (im' & Hcase & Hrun).
    eexists _, _, im'. split; [exact Hrun|]. split; [apply lookup_insert_eq|].
    destruct Hcase as [[_ Hp]|Hmk].
    + split; [|by left]. apply logo_pasted_shape in Hp. destruct Hp as (_ & H2 & _). congruence.
    + split; [|by right]. apply mark_drawn_shape in Hmk. destruct Hmk as (H2 & _). congruence.
  - intros args s s'. rewrite post_unfold.
    destruct (openai_chat cfg C W _ default_model) as [e|cap]; [done|].
    destruct (generated_image cfg C W E _ default_size) as [e|im] eqn:Hg; [done|].
    apply generated_image_shape in Hg as (Hmode & _).
    cbv zeta. set (l := fresh (dom (heap s))).
    destruct (add_logo_or_mark cfg W E l _) as [[e|l2] s2] eqn:Hrun; [done|].
    pose proof (add_logo_or_mark_touches cfg W E l
                  {| heap := <[l := im]> (heap s); outbox := outbox s |}) as [Hout _].
    rewrite Hrun in Hout. cbn [snd outbox] in Hout.
    eapply add_logo_or_mark_shape in Hrun as (im' & Hl' & Hs' & _);
      [|apply lookup_insert_eq].
    rewrite Hl'. unfold save_png. rewrite Hs', Hmode. cbn [png_writable].
    intros [= <-]. exists im', (cap +:+ LF +:+ LF +:+ HASHTAGS). cbn [outbox].
    rewrite Hout. split; [done|congruence].
Qed.

Lemma image_step_is_RGBA_witness :
  ∃ l s' im',
    add_logo_or_mark (Example.branded "https://example.org/logo.png") Example.online
      Example.pillow 1%positive Example.studio = (inr l, s') ∧
    heap s' !! l = Some im' ∧ im_mode im' = M_RGBA ∧
    (logo_pasted (Example.branded "https://example.org/logo.png") Example.online
       Example.pillow Example.canvas im' ∨
     mark_drawn (Example.branded "https://example.org/logo.png") Example.pillow
       Example.canvas im').
Proof.
  refine (proj1 (proj2 (proj2 (image_step_is_RGBA
            (Example.branded "https://example.org/logo.png") Example.codecs Example.online
            Example.pillow))) Example.studio 1%positive Example.canvas _ _ _ _).
  - reflexivity.
  - reflexivity.
  - unfold wf_image; simpl; lia.
  - eexists; reflexivity.
Defined.

(* ===================================================================== *)
(** * Further properties *)
(* ===================================================================== *)

(** ** [str.strip] *)

Section strip.

Lemma codes_prefix_spec p l : codes_prefix p l = true ↔ ∃ q, l = p ++ q.
Proof.
  revert l. induction p as [|a p IH]; intros l; simpl.
  - split; [intros _; by exists l|done].
  - destruct l as [|b l]; [split; [done|intros (q & [=])]|].
    rewrite andb_true_iff, Z.eqb_eq, IH. split.
    + intros [-> (q & ->)]. by exists q.
    + intros (q & [= -> ->]). eauto.
Qed.

Lemma leading_space_Some ws l k :
  leading_space ws l = Some k → ∃ w q, w ∈ ws ∧ l = w ++ q ∧ k = length w.
Proof.
  unfold leading_space. destruct (List.find _ ws) as [w|] eqn:Hf; [|done].
  intros [= <-]. apply find_some in Hf as [Hin Hp].
  apply codes_prefix_spec in Hp as (q & ->). exists w, q.
  split; [by apply list_elem_of_In|done].
Qed.

Lemma leading_space_None ws l :
  leading_space ws l = None ↔ ∀ w q, w ∈ ws → l ≠ w ++ q.
Proof.
  unfold leading_space. split.
  - destruct (List.find _ ws) as [w|] eqn:Hf; [done|]. intros _ w q Hin ->.
    pose proof (find_none _ _ Hf w) as Hn. rewrite <- list_elem_of_In in Hn.
    specialize (Hn Hin).
    assert (codes_prefix w (w ++ q) = true) by (apply codes_prefix_spec; eauto). congruence.
  - intros Hno. destruct (List.find _ ws) as [w|] eqn:Hf; [|done].
    apply find_some in Hf as [Hin Hp]. apply codes_prefix_spec in Hp as (q & ->).
    exfalso. eapply Hno; [by apply list_elem_of_In|done].
Qed.

Lemma lstrip_codes_suffix fuel ws l : ∃ j, lstrip_codes fuel ws l = drop j l.
Proof.
  revert l. induction fuel as [|fuel IH]; intros l; simpl; [by exists O|].
  destruct (leading_space ws l) as [k|]; [|by exists O].
  destruct (IH (drop k l)) as (j & ->). exists (k + j)%nat. by rewrite drop_drop.
Qed.

Lemma lstrip_codes_clean fuel ws l :
  (length l ≤ fuel)%nat → (∀ w, w ∈ ws → w ≠ []) →
  leading_space ws (lstrip_codes fuel ws l) = None.
Proof.
  intros Hlen Hne. revert l Hlen. induction fuel as [|fuel IH]; intros l Hlen; simpl.
  - destruct l; [|simpl in Hlen; lia]. apply leading_space_None.
    intros w q Hin Heq. symmetry in Heq. apply app_eq_nil in Heq as [-> _]. by eapply Hne.
  - destruct (leading_space ws l) as [k|] eqn:Hk; [|done].
    apply leading_space_Some in Hk as (w & q & Hin & -> & ->).
    apply IH. rewrite length_drop. rewrite length_app in *.
    destruct w; [by exfalso; eapply Hne|]. simpl in *. lia.
Qed.

Lemma byte_codes_range s : Forall (λ c, 0 ≤ c < 256) (byte_codes s).
Proof.
  unfold byte_codes. apply Forall_fmap, Forall_forall. intros a _. simpl.
  pose proof (Ascii.nat_ascii_bounded a). lia.
Qed.

Lemma byte_codes_of_byte_codes l :
  Forall (λ c, 0 ≤ c < 256) l → byte_codes (of_byte_codes l) = l.
Proof.
  intros Hl. unfold byte_codes, of_byte_codes.
  rewrite String.list_ascii_of_string_of_list_ascii.
  induction Hl as [|c l Hc _ IH]; [done|]. cbn [fmap list_fmap] in *. rewrite IH. f_equal.
  rewrite Ascii.nat_ascii_embedding by lia. lia.
Qed.

Lemma whitespace_nonempty :
  (∀ w, w ∈ whitespace → w ≠ []) ∧ (∀ w, w ∈ (reverse <$> whitespace) → w ≠ []).
Proof.
  split; intros w H ->; vm_compute in H;
    repeat (apply elem_of_cons in H as [H|H]; [discriminate H|]);
    by apply elem_of_nil in H.
Qed.

Lemma strip_codes s :
  ∃ i j, byte_codes (strip s) = take i (drop j (byte_codes s)) ∧
         leading_space whitespace (drop j (byte_codes s)) = None ∧
         leading_space (reverse <$> whitespace)
           (reverse (take i (drop j (byte_codes s)))) = None.
Proof.
  unfold strip. set (l := byte_codes s).
  destruct (lstrip_codes_suffix (length l) whitespace l) as (j & Hj).
  pose proof (lstrip_codes_clean (length l) whitespace l (le_n _) (proj1 whitespace_nonempty))
    as Hclean1.
  rewrite Hj in *. set (l1 := drop j l) in *.
  destruct (lstrip_codes_suffix (length l1) (reverse <$> whitespace) (reverse l1)) as (k & Hk).
  pose proof (lstrip_codes_clean (length l1) (reverse <$> whitespace) (reverse l1)) as Hclean2.
  rewrite length_reverse in Hclean2. specialize (Hclean2 (le_n _) (proj2 whitespace_nonempty)).
  rewrite Hk in *.
  assert (Hrev : reverse (drop k (reverse l1)) = take (length l1 - k) l1).
  { by rewrite drop_reverse, reverse_involutive. }
  exists (length l1 - k)%nat, j. rewrite Hrev.
  split_and!; [|done|].
  - apply byte_codes_of_byte_codes.
    apply Forall_take, Forall_drop, byte_codes_range.
  - fold l l1. rewrite <- Hrev, reverse_involutive. done.
Qed.

Lemma strip_is_clean s : ¬ starts_with_space (strip s) ∧ ¬ ends_with_space (strip s).
Proof.
  destruct (strip_codes s) as (i & j & Hs & Hlead & Htrail). split.
  - intros (w & rest & Hw & Heq). rewrite Hs in Heq.
    rewrite leading_space_None in Hlead.
    apply (Hlead w (rest ++ drop i (drop j (byte_codes s))) Hw).
    rewrite <- (take_drop i (drop j (byte_codes s))) at 1. rewrite Heq. by rewrite <- app_assoc.
  - intros (w & rest & Hw & Heq). rewrite Hs in Heq.
    rewrite leading_space_None in Htrail.
    apply (Htrail (reverse w) (reverse rest)); [by apply list_elem_of_fmap_2|].
    rewrite Heq. by rewrite reverse_app.
Qed.

(** No white-space code point is the beginning of another one. *)
Lemma whitespace_prefix_free w w' q q' :
  w ∈ whitespace → w' ∈ whitespace → w ++ q = w' ++ q' → w = w'.
Proof.
  intros Hw Hw' Heq.
  assert (Hfree : Forall (λ a, Forall (λ b, codes_prefix a b = true → a = b) whitespace)
                    whitespace).
  { apply (bool_decide_unpack _). by vm_compute. }
  rewrite Forall_forall in Hfree.
  assert (Hpre : w `prefix_of` w' ∨ w' `prefix_of` w).
  { apply (prefix_weak_total _ _ (w ++ q)); [by exists q|exists q'; done]. }
  destruct Hpre as [[r Hr]|[r Hr]].
  - specialize (Hfree w Hw). rewrite Forall_forall in Hfree.
    apply (Hfree w' Hw'). apply codes_prefix_spec. eauto.
  - specialize (Hfree w' Hw'). rewrite Forall_forall in Hfree.
    symmetry. apply (Hfree w Hw). apply codes_prefix_spec. eauto.
Qed.

Lemma lstrip_codes_blank fuel ws :
  Forall (λ w, w ∈ whitespace) ws → (length (concat ws) ≤ fuel)%nat →
  lstrip_codes fuel whitespace (concat ws) = [].
Proof.
  revert ws. induction fuel as [|fuel IH]; intros ws Hws Hlen.
  - destruct (concat ws); [done|simpl in Hlen; lia].
  - destruct Hws as [|w ws Hw Hws]; cbn [lstrip_codes concat].
    + by vm_compute.
    + destruct (leading_space whitespace (w ++ concat ws)) as [k|] eqn:Hk.
      * apply leading_space_Some in Hk as (w' & q & Hw' & Heq & ->).
        pose proof (whitespace_prefix_free _ _ _ _ Hw Hw' Heq) as <-.
        rewrite drop_app_length. apply IH; [done|].
        cbn [concat] in Hlen. rewrite length_app in Hlen.
        pose proof (proj1 whitespace_nonempty w Hw). destruct w; [done|].
        simpl in Hlen. lia.
      * exfalso. rewrite leading_space_None in Hk. by eapply Hk.
Qed.

Lemma strip_blank s : blank s → strip s = "".
Proof.
  intros (ws & Hws & Heq). unfold strip. rewrite Heq.
  rewrite lstrip_codes_blank by done. reflexivity.
Qed.

End strip.

(** ** The mark without letters *)

Lemma disc_without_letters (cfg : Config) (W : World) (E : engine)
    (s : state) (img : loc) (im : image) (ink : pixel) :
  heap s !! img = Some im → wf_image im → getrgb E (BRAND_PRIMARY cfg) = Some ink →
  LOGO_URL cfg = "" →
  textsize E = None ∨ (∃ e, load_default E = inl e) →
  let l := fresh (dom (heap s)) in
  let disc := filled_ellipse E im (mark_box (width im) (height im)) ink in
  add_logo_or_mark cfg W E img s
  = (inr l, {| heap := <[l := disc]> (heap s); outbox := outbox s |}) ∧
  ∀ x y, px disc x y = if covers E (mark_box (width im) (height im)) x y then ink
                       else px im x y.
Proof.
  intros Hl Hwf Hink Hurl Htext l disc. split; [|done].
  unfold add_logo_or_mark, Image_copy. msimpl. rewrite Hl, Hurl. cbn [str_bool].
  fold l. unfold draw_mark, ellipse. msimpl. rewrite !lookup_insert_eq.
  rewrite int_scaled_12 by apply Hwf.
  fold (mark_box (width im) (height im)).
  rewrite (ellipse_image_mark cfg E _ _ _ ink) by (done || apply Hwf). fold disc.
  cbn [heap outbox]. rewrite insert_insert_eq.
  assert (Hpd : ∀ s0 cx cy, ∃ e, draw_pd cfg E (Draw l) cx cy s0 = (inl e, s0)).
  { intros s0 cx cy. unfold draw_pd, draw_textsize. msimpl.
    destruct Htext as [Ht|(e & He)].
    - destruct (load_default E); [eauto|]. rewrite Ht. eauto.
    - rewrite He. eauto. }
  match goal with |- context [draw_pd _ _ _ ?x ?y ?s0] =>
    destruct (Hpd s0 x y) as [err ->] end.
  done.
Qed.

(** The ellipse of the example engine stays inside a box of positive extent. *)
Lemma inscribed_in_box x0 y0 x1 y1 x y :
  x0 < x1 → y0 < y1 → Example.inscribed (x0, y0, x1, y1) x y = true →
  x0 ≤ x ≤ x1 ∧ y0 ≤ y ≤ y1.
Proof.
  intros Hx Hy. unfold Example.inscribed. intros H. apply Z.leb_le in H.
  rewrite !Z.pow_2_r in H.
  set (a := x1 - x0) in *. set (c := y1 - y0) in *.
  set (u := 2 * x - x0 - x1) in *. set (v := 2 * y - y0 - y1) in *.
  assert (Ha : 0 < a) by (unfold a; lia). assert (Hc : 0 < c) by (unfold c; lia).
  assert (Hu : u * u ≤ a * a).
  { destruct (Z_le_gt_dec (u * u) (a * a)); [done|]. exfalso.
    assert (a * a * (c * c) < u * u * (c * c)) by (apply Z.mul_lt_mono_pos_r; nia).
    assert (0 ≤ v * v * (a * a)) by nia. lia. }
  assert (Hv : v * v ≤ c * c).
  { destruct (Z_le_gt_dec (v * v) (c * c)); [done|]. exfalso.
    assert (c * c * (a * a) < v * v * (a * a)) by (apply Z.mul_lt_mono_pos_r; nia).
    assert (0 ≤ u * u * (c * c)) by nia. lia. }
  assert (- a ≤ u ≤ a) by nia. assert (- c ≤ v ≤ c) by nia.
  unfold a, c, u, v in *. lia.
Qed.

(** ** One reply per command *)

Section commands.
Context (cfg : Config) (C : Codecs) (W : World) (E : engine).

Lemma reply_text_once text s : replies_once (reply_text text s) s.
Proof. split; [done|]. simpl. eauto. Qed.

Lemma idea_once s : replies_once (idea cfg C W s) s.
Proof.
  unfold idea. msimpl. destruct (openai_chat cfg C W idea_prompt default_model); [done|].
  apply reply_text_once.
Qed.

Lemma caption_once args s : replies_once (caption cfg C W args s) s.
Proof.
  rewrite caption_unfold. destruct (openai_chat cfg C W _ default_model); [done|].
  split; [done|]. simpl. eauto.
Qed.

Lemma post_once args s : replies_once (post cfg C W E args s) s.
Proof.
  rewrite post_unfold.
  destruct (openai_chat cfg C W _ default_model) as [e|cap]; [done|].
  destruct (generated_image cfg C W E _ default_size) as [e|im]; [done|].
  cbv zeta. set (l := fresh (dom (heap s))).
  set (s1 := {| heap := <[l := im]> (heap s); outbox := outbox s |}).
  pose proof (add_logo_or_mark_touches cfg W E l s1) as [Hout Hframe].
  assert (Hkeep : ∀ l0 x, heap s !! l0 = Some x →
                  heap (snd (add_logo_or_mark cfg W E l s1)) !! l0 = Some x).
  { intros l0 x Hx.
    assert (Hx1 : heap s1 !! l0 = Some x).
    { unfold s1. cbn [heap]. rewrite lookup_insert_ne; [done|]. intros <-.
      by eapply fresh_loc_new. }
    rewrite Hframe; [done|]. by eapply fresh_loc_new. }
  destruct (add_logo_or_mark cfg W E l s1) as [[e|l2] s2]; cbn [snd] in *.
  - split; [done|]. done.
  - destruct (heap s2 !! l2) as [im'|]; [|split; done].
    destruct (save_png E im'); (split; [done|]); cbn [fst snd outbox]; [done|].
    rewrite Hout. eauto.
Qed.

End commands.

(** ** Binary64 division and the height of the scaled logo *)

(** [ratio = w / logo.width] and [int(logo.height * ratio)] are two roundings
    away from the exact proportion.  This part bounds the quotient computed
    by [SFdiv] within one unit in the last place and derives the window in
    which the scaled height lies. *)

Section division.

(** Rounding to nearest moves a mantissa by at most one. *)
Lemma round_nearest_even_range m l : m ≤ round_nearest_even m l ≤ m + 1.
Proof. destruct l as [|[]]; simpl; try case_match; lia. Qed.

(** The first step of [binary_round_aux] on a mantissa of 53 or 54 bits,
    whatever is known of the digits already dropped. *)
Lemma shr_fexp_loose q E l j :
  0 ≤ j ≤ 1 → 2 ^ (j + 52) ≤ q < 2 ^ (j + 53) → -1074 ≤ E + j →
  ∃ mrs, shr_fexp prec emax q E l = (mrs, E + j) ∧ shr_m mrs = q / 2 ^ j.
Proof.
  intros Hj Hq HE. unfold shr_fexp.
  rewrite (Zdigits2_unique q (j + 53)) by (replace (j + 53 - 1) with (j + 52) by lia; lia).
  rewrite fexp_normal by lia.
  replace (j + 53 + E - 53 - E) with j by lia.
  assert (Hq0 : 0 ≤ q) by (pose proof (Z.pow_pos_nonneg 2 (j + 52)); lia).
  assert (j = 0 ∨ j = 1) as [->| ->] by lia.
  - simpl. eexists. split; [f_equal; lia|]. rewrite Z.div_1_r. by destruct l as [|[]].
  - simpl. eexists. split; [done|].
    destruct l as [|[]]; simpl shr_record_of_loc; rewrite shr_1_nonneg by done; done.
Qed.

Lemma binary_round_aux_loose q E l j :
  0 ≤ j ≤ 1 → 2 ^ (j + 52) ≤ q < 2 ^ (j + 53) → -1074 ≤ E + j → E + j + 1 ≤ 971 →
  ∃ m e, binary_round_aux prec emax false q E l = S754_finite false m e ∧
         2 ^ 52 ≤ Zpos m < 2 ^ 53 ∧ E + j ≤ e ≤ E + j + 1 ∧
         q / 2 ^ j ≤ Zpos m * 2 ^ (e - (E + j)) ≤ q / 2 ^ j + 1.
Proof.
  intros Hj Hq HE1 HE2. unfold binary_round_aux.
  destruct (shr_fexp_loose q E l j Hj Hq HE1) as (mrs & -> & Hm).
  pose proof (round_nearest_even_range (shr_m mrs) (loc_of_shr_record mrs)) as Hr.
  set (R := round_nearest_even (shr_m mrs) (loc_of_shr_record mrs)) in *. clearbody R.
  rewrite Hm in Hr. clear Hm mrs.
  assert (HQ : 2 ^ 52 ≤ q / 2 ^ j < 2 ^ 53).
  { assert (HP : 0 < 2 ^ j) by (apply Z.pow_pos_nonneg; lia).
    rewrite !Z.pow_add_r in Hq by lia.
    split; [apply Z.div_le_lower_bound; lia|apply Z.div_lt_upper_bound; lia]. }
  set (Q := q / 2 ^ j) in *. clearbody Q. clear Hq.
  destruct (Z.eq_dec R (2 ^ 53)) as [Heq|Hne].
  - rewrite Heq. exists 4503599627370496%positive, (E + j + 1).
    unfold shr_fexp. rewrite (Zdigits2_unique _ 54) by lia.
    rewrite fexp_normal by lia.
    replace (54 + (E + j) - 53 - (E + j)) with 1 by lia.
    change (2 ^ 53) with 9007199254740992 in *.
    cbn [shr_record_of_loc shr SpecFloat.iter_pos shr_1 shr_m].
    replace (E + j + 1 <=? emax - prec) with true
      by (symmetry; apply Z.leb_le; unfold emax, prec; lia).
    replace (E + j + 1 - (E + j)) with 1 by lia.
    change (2 ^ 52) with 4503599627370496 in *.
    split_and!; try done; try lia.
  - destruct (shr_fexp_normal R (E + j) 0) as (mrs' & -> & Hsh'); [lia|simpl; lia|lia|].
    destruct Hsh' as (Hm' & _). rewrite Z.pow_0_r, Z.div_1_r in Hm'.
    rewrite Z.add_0_r, Hm'.
    destruct R as [|m|m] eqn:HR; [lia| |lia].
    replace (E + j <=? emax - prec) with true
      by (symmetry; apply Z.leb_le; unfold emax, prec; lia).
    exists m, (E + j). rewrite Z.sub_diag, Z.pow_0_r, Z.mul_1_r.
    split_and!; try done; try lia.
Qed.

(** From the Euclidean division [a = my * q + r] of [a = c * X] to a window
    around [X / my]. *)
Lemma quotient_window c X my q r m :
  0 < c → c * X = my * q + r → 0 ≤ r < my →
  c * (m - 1) ≤ q → q + 1 ≤ c * (m + 1) →
  (m - 1) * my ≤ X ≤ (m + 1) * my.
Proof.
  intros Hc Ha Hr Hlo Hhi.
  assert (H1 : c * (m - 1) * my ≤ q * my) by (apply Z.mul_le_mono_nonneg_r; lia).
  assert (H2 : (q + 1) * my ≤ c * (m + 1) * my) by (apply Z.mul_le_mono_nonneg_r; lia).
  split.
  - apply (Z.mul_le_mono_pos_l _ _ c); lia.
  - apply (Z.mul_le_mono_pos_l _ _ c); lia.
Qed.

(** The quotient of two normal numbers: a normal number within one unit in
    the last place of the exact quotient. *)
Lemma fdiv_normal mx ex my ey :
  2 ^ 52 ≤ Zpos mx < 2 ^ 53 → 2 ^ 52 ≤ Zpos my < 2 ^ 53 →
  -1074 ≤ ex - ey - 53 → ex - ey ≤ 970 →
  ∃ m t, fdiv (S754_finite false mx ex) (S754_finite false my ey)
         = S754_finite false m (ex - ey - t) ∧
         2 ^ 52 ≤ Zpos m < 2 ^ 53 ∧ 51 ≤ t ≤ 53 ∧
         (Zpos m - 1) * Zpos my ≤ Zpos mx * 2 ^ t ≤ (Zpos m + 1) * Zpos my.
Proof.
  intros Hx Hy He1 He2. unfold fdiv, SFdiv, SFdiv_core_binary. cbv zeta.
  rewrite !(Zdigits2_unique _ 53) by (change (53 - 1) with 52; lia).
  rewrite fexp_normal by lia.
  rewrite Z.min_l by lia.
  replace (ex - ey - (53 + ex - (53 + ey) - 53)) with 53 by lia.
  rewrite Z.shiftl_mul_pow2 by lia.
  pose proof (Z_div_mod (Zpos mx * 2 ^ 53) (Zpos my) ltac:(lia)) as Hdiv.
  destruct (Z.div_eucl (Zpos mx * 2 ^ 53) (Zpos my)) as [q r]. destruct Hdiv as [Ha Hr].
  cbn [xorb].
  set (X := Zpos mx) in *. set (Y := Zpos my) in *.
  assert (Hq : 2 ^ 52 ≤ q < 2 ^ 54).
  { split.
    - destruct (Z_le_gt_dec (2 ^ 52) q); [done|exfalso].
      assert (Y * (q + 1) ≤ Y * 2 ^ 52) by (apply Z.mul_le_mono_nonneg_l; lia).
      assert (2 ^ 52 * 2 ^ 53 ≤ X * 2 ^ 53) by (apply Z.mul_le_mono_nonneg_r; lia).
      assert (Y * 2 ^ 52 < 2 ^ 53 * 2 ^ 52) by (apply Z.mul_lt_mono_pos_r; lia).
      lia.
    - destruct (Z_lt_ge_dec q (2 ^ 54)); [done|exfalso].
      assert (Y * 2 ^ 54 ≤ Y * q) by (apply Z.mul_le_mono_nonneg_l; lia).
      assert (2 ^ 52 * 2 ^ 54 ≤ Y * 2 ^ 54) by (apply Z.mul_le_mono_nonneg_r; lia).
      assert (X * 2 ^ 53 < 2 ^ 53 * 2 ^ 53) by (apply Z.mul_lt_mono_pos_r; lia).
      change (2 ^ 52 * 2 ^ 54) with (2 ^ 53 * 2 ^ 53) in *. lia. }
  set (j := if q <? 2 ^ 53 then 0 else 1).
  assert (Hj : 0 ≤ j ≤ 1 ∧ 2 ^ (j + 52) ≤ q < 2 ^ (j + 53)).
  { unfold j. destruct (Z.ltb_spec q (2 ^ 53)); simpl; lia. }
  destruct Hj as [Hj Hqj].
  destruct (binary_round_aux_loose q (53 + ex - (53 + ey) - 53) (new_location Y r) j)
    as (m & e & -> & Hm & He & HV); [done|done|lia|lia|].
  pose proof (Z.div_mod q 2 ltac:(lia)) as Hq2.
  pose proof (Z.mod_pos_bound q 2 ltac:(lia)) as Hq2b.
  exists m, (ex - ey - e). replace (ex - ey - (ex - ey - e)) with e by lia.
  split; [done|]. split; [done|]. split; [lia|].
  set (M := Zpos m) in *. clearbody M X Y. clear Hx Hy.
  assert (j = 0 ∨ j = 1) as [Hj0|Hj1] by lia;
    (assert (e = 53 + ex - (53 + ey) - 53 + j ∨ e = 53 + ex - (53 + ey) - 53 + j + 1)
       as [Hd0|Hd1] by lia).
  - (* 53 bits, no carry *)
    replace (ex - ey - e) with 53 by lia.
    replace (e - (53 + ex - (53 + ey) - 53 + j)) with 0 in HV by lia.
    rewrite Hj0, Z.pow_0_r, Z.div_1_r, Z.mul_1_r in HV.
    apply (quotient_window 1 _ Y q r M); lia.
  - (* 53 bits, carry *)
    replace (ex - ey - e) with 52 by lia.
    replace (e - (53 + ex - (53 + ey) - 53 + j)) with 1 in HV by lia.
    rewrite Hj0, Z.pow_0_r, Z.div_1_r, Z.pow_1_r in HV.
    apply (quotient_window 2 _ Y q r M); [lia| |lia|lia|lia].
    rewrite <- Ha. change (2 ^ 53) with (2 * 2 ^ 52). lia.
  - (* 54 bits, no carry *)
    replace (ex - ey - e) with 52 by lia.
    replace (e - (53 + ex - (53 + ey) - 53 + j)) with 0 in HV by lia.
    rewrite Hj1, Z.pow_1_r, Z.pow_0_r, Z.mul_1_r in HV.
    apply (quotient_window 2 _ Y q r M); [lia| |lia|lia|lia].
    rewrite <- Ha. change (2 ^ 53) with (2 * 2 ^ 52). lia.
  - (* 54 bits, carry *)
    replace (ex - ey - e) with 51 by lia.
    replace (e - (53 + ex - (53 + ey) - 53 + j)) with 1 in HV by lia.
    rewrite Hj1, !Z.pow_1_r in HV.
    apply (quotient_window 4 _ Y q r M); [lia| |lia|lia|lia].
    rewrite <- Ha. change (2 ^ 53) with (4 * 2 ^ 51). lia.
Qed.

(** The arithmetic of the two roundings, on integers. *)
Lemma proportional_core h Y Z N P mh mr ml mw T G lw lh w :
  0 < Z → 0 < N → 0 < G → 0 ≤ mh → 0 < ml →
  h * Z ≤ Y < (h + 1) * Z →
  Y * N ≤ P + N → P < Y * N + N →
  P = mh * mr →
  (mr - 1) * ml ≤ mw * T ≤ (mr + 1) * ml →
  Z * N * ml = G * lw → mh * (mw * T) = lh * w * G →
  ml * (mh + N) < G →
  h * lw ≤ lh * w ≤ (h + 1) * lw.
Proof.
  intros HZ HN HG Hmh Hml [Hf1 Hf2] Hr1 Hr2 HP [Hd1 Hd2] HG1 HG2 Hsmall.
  assert (B1 : mh * ((mr - 1) * ml) ≤ mh * (mw * T)) by (apply Z.mul_le_mono_nonneg_l; lia).
  assert (B2 : mh * (mw * T) ≤ mh * ((mr + 1) * ml)) by (apply Z.mul_le_mono_nonneg_l; lia).
  assert (E1 : P * ml = mh * (mr * ml)) by (rewrite HP; ring).
  assert (E2 : mh * ((mr - 1) * ml) = mh * (mr * ml) - mh * ml) by ring.
  assert (E3 : mh * ((mr + 1) * ml) = mh * (mr * ml) + mh * ml) by ring.
  assert (E4 : ml * (mh + N) = mh * ml + N * ml) by ring.
  split.
  - assert (A1 : h * Z * N ≤ Y * N) by (apply Z.mul_le_mono_nonneg_r; lia).
    assert (A2 : (h * Z * N) * ml ≤ (P + N) * ml) by (apply Z.mul_le_mono_nonneg_r; lia).
    assert (E5 : (h * Z * N) * ml = (h * lw) * G) by (transitivity (h * (Z * N * ml)); [ring|rewrite HG1; ring]).
    assert (E6 : (P + N) * ml = P * ml + N * ml) by ring.
    assert (A3 : (h * lw) * G < (lh * w + 1) * G).
    { replace ((lh * w + 1) * G) with (lh * w * G + G) by ring. lia. }
    apply Z.mul_lt_mono_pos_r in A3; lia.
  - assert (A1 : Y * N < (h + 1) * Z * N) by (apply Z.mul_lt_mono_pos_r; lia).
    assert (A2 : (P - N) * ml < ((h + 1) * Z * N) * ml) by (apply Z.mul_lt_mono_pos_r; lia).
    assert (E5 : ((h + 1) * Z * N) * ml = ((h + 1) * lw) * G)
      by (transitivity ((h + 1) * (Z * N * ml)); [ring|rewrite HG1; ring]).
    assert (E6 : (P - N) * ml = P * ml - N * ml) by ring.
    assert (A3 : (lh * w - 1) * G < ((h + 1) * lw) * G).
    { replace ((lh * w - 1) * G) with (lh * w * G - G) by ring. lia. }
    apply Z.mul_lt_mono_pos_r in A3; lia.
Qed.

(** Rounding [P / 2 ^ n] to nearest stays within one of the quotient. *)
Lemma rnd_window P n :
  0 ≤ n → rnd P n * 2 ^ n ≤ P + 2 ^ n ∧ P < rnd P n * 2 ^ n + 2 ^ n.
Proof.
  intros Hn. assert (HN : 0 < 2 ^ n) by (apply Z.pow_pos_nonneg; lia).
  pose proof (rnd_range P n Hn) as [Hlo Hhi].
  pose proof (Z.mul_div_le P (2 ^ n) HN) as Hq1.
  pose proof (Z.mul_succ_div_gt P (2 ^ n) HN) as Hq2.
  set (N := 2 ^ n) in *. set (q := P / N) in *. set (Y := rnd P n) in *.
  clearbody N q Y.
  assert (Y * N ≤ (q + 1) * N) by (apply Z.mul_le_mono_nonneg_r; lia).
  assert (q * N ≤ Y * N) by (apply Z.mul_le_mono_nonneg_r; lia).
  lia.
Qed.

(** [int(lh * (w / lw))] for positive sizes: within one row of the exact
    proportion [lh * w / lw], and never above it. *)
Lemma scaled_height_positive lh w lw :
  0 < lh < 2 ^ 31 → 0 < w < 2 ^ 31 → 0 < lw < 2 ^ 31 → lh * w < 2 ^ 48 →
  ∃ ratio h, int_truediv w lw = inr ratio ∧ int_scaled lh ratio = inr h ∧
             h * lw ≤ lh * w ≤ (h + 1) * lw.
Proof.
  intros Hlh Hw Hlw Hsmall.
  destruct (float_of_int_small w) as (mw & Kw & Hfw & Hmw & _ & HKw & Ha & Hbw); [done|].
  destruct (float_of_int_small lw) as (ml & Kl & Hfl & Hml & _ & HKl & Hb & Hbl); [done|].
  destruct (float_of_int_small lh) as (mh & Kh & Hfh & Hmh & _ & HKh & Hc & Hbh); [done|].
  set (a := Z.log2 Kw) in *. set (b := Z.log2 Kl) in *. set (c := Z.log2 Kh) in *.
  clearbody a b c.
  destruct (fdiv_normal mw (- a) ml (- b)) as (mr & t & Hdiv & Hmr & Ht & Hwin);
    [done|done|lia|lia|].
  exists (S754_finite false mr (- a - - b - t)).
  assert (Hratio : int_truediv w lw = inr (S754_finite false mr (- a - - b - t))).
  { unfold int_truediv. rewrite (proj2 (Z.eqb_neq lw 0)) by lia. rewrite Hfw, Hfl.
    cbn [mbind mret result_bind result_ret]. by rewrite Hdiv. }
  assert (Hca : 57 ≤ c + a).
  { destruct (Z_le_gt_dec 57 (c + a)); [done|exfalso].
    assert (HK : Kh * Kw ≤ 2 ^ 56).
    { rewrite HKh, HKw, <- Z.pow_add_r by lia. apply Z.pow_le_mono_r; lia. }
    assert (2 ^ 52 * 2 ^ 52 ≤ Zpos mh * Zpos mw) by (apply Z.mul_le_mono_nonneg; lia).
    assert (Zpos mh * Zpos mw = (lh * w) * (Kh * Kw)) by (rewrite Hmh, Hmw; ring).
    assert ((lh * w) * (Kh * Kw) ≤ (lh * w) * 2 ^ 56) by (apply Z.mul_le_mono_nonneg_l; lia).
    assert ((lh * w) * 2 ^ 56 < 2 ^ 48 * 2 ^ 56) by (apply Z.mul_lt_mono_pos_r; lia).
    change (2 ^ 48 * 2 ^ 56) with (2 ^ 52 * 2 ^ 52) in *. lia. }
  set (P := Zpos mh * Zpos mr).
  assert (HP : 2 ^ 104 ≤ P < 2 ^ 106).
  { unfold P. split.
    - change (2 ^ 104) with (2 ^ 52 * 2 ^ 52). apply Z.mul_le_mono_nonneg; lia.
    - change (2 ^ 106) with (2 ^ 53 * 2 ^ 53). apply Z.mul_lt_mono_nonneg; lia. }
  set (n := if P <? 2 ^ 105 then 52 else 53).
  assert (Hn : 52 ≤ n ≤ 53 ∧ 2 ^ (n + 52) ≤ P < 2 ^ (n + 53)).
  { unfold n. destruct (Z.ltb_spec P (2 ^ 105)); simpl; lia. }
  destruct Hn as [Hn HPn]. clearbody n.
  set (k := c + a - b + t - n).
  exists (rnd P n / 2 ^ k). split; [done|]. split.
  { unfold int_scaled, int_mul_float. rewrite Hfh. cbn [mbind mret result_bind result_ret].
    rewrite (int_fmul_normal _ _ _ _ n); [|lia|done|lia|lia].
    fold P. do 3 f_equal. unfold k. lia. }
  assert (HZ : 0 < 2 ^ k) by (apply Z.pow_pos_nonneg; unfold k; lia).
  assert (HN : 0 < 2 ^ n) by (apply Z.pow_pos_nonneg; lia).
  assert (HT : 0 < 2 ^ t) by (apply Z.pow_pos_nonneg; lia).
  assert (HKh0 : 0 < Kh) by (rewrite HKh; apply Z.pow_pos_nonneg; lia).
  assert (HKw0 : 0 < Kw) by (rewrite HKw; apply Z.pow_pos_nonneg; lia).
  destruct (rnd_window P n) as [Hr1 Hr2]; [lia|].
  assert (HG : 0 < Kh * Kw * 2 ^ t) by (apply Z.mul_pos_pos; [apply Z.mul_pos_pos|]; done).
  assert (Hfloor : rnd P n / 2 ^ k * 2 ^ k ≤ rnd P n < (rnd P n / 2 ^ k + 1) * 2 ^ k).
  { split.
    - rewrite Z.mul_comm. by apply Z.mul_div_le.
    - rewrite Z.mul_comm. by apply Z.mul_succ_div_gt. }
  assert (HG1 : 2 ^ k * 2 ^ n * Zpos ml = Kh * Kw * 2 ^ t * lw).
  { rewrite Hml, HKl, HKh, HKw.
    transitivity (lw * (2 ^ k * 2 ^ n * 2 ^ b)); [ring|].
    transitivity (lw * (2 ^ c * 2 ^ a * 2 ^ t)); [|ring].
    f_equal. rewrite <- !Z.pow_add_r by (unfold k; lia). f_equal. unfold k. lia. }
  assert (HG2 : Zpos mh * (Zpos mw * 2 ^ t) = lh * w * (Kh * Kw * 2 ^ t)).
  { rewrite Hmh, Hmw. ring. }
  assert (Hroom : Zpos ml * (Zpos mh + 2 ^ n) < Kh * Kw * 2 ^ t).
  { assert (2 ^ n ≤ 2 ^ 53) by (apply Z.pow_le_mono_r; lia).
    assert (Zpos ml * (Zpos mh + 2 ^ n) < 2 ^ 53 * 2 ^ 54).
    { apply Z.mul_lt_mono_nonneg; lia. }
    assert (2 ^ 57 ≤ Kh * Kw).
    { rewrite HKh, HKw, <- Z.pow_add_r by lia. apply Z.pow_le_mono_r; lia. }
    assert (2 ^ 51 ≤ 2 ^ t) by (apply Z.pow_le_mono_r; lia).
    assert (2 ^ 57 * 2 ^ 51 ≤ Kh * Kw * 2 ^ t) by (apply Z.mul_le_mono_nonneg; lia).
    change (2 ^ 57 * 2 ^ 51) with (2 ^ 53 * 2 ^ 55) in *.
    assert (2 ^ 53 * 2 ^ 54 < 2 ^ 53 * 2 ^ 55) by done.
    lia. }
  apply (proportional_core _ (rnd P n) (2 ^ k) (2 ^ n) P (Zpos mh) (Zpos mr) (Zpos ml)
           (Zpos mw) (2 ^ t) (Kh * Kw * 2 ^ t)); done || lia.
Qed.

End division.

(** ** The brand mark *)

(** Extra X1.  The two scale factors of [add_logo_or_mark] are computed in
    binary64, yet for every width an image can have they are integer
    quotients: [int(w * 0.12)] is [12 * w / 100] and [int(w * 0.16)] is
    [16 * w / 100], rounded down. *)
Theorem scaled_sizes_are_integer_quotients (w : Z) :
  0 ≤ w < 2 ^ 31 →
  int_scaled w (literal 12 100) = inr (12 * w / 100) ∧
  int_scaled w (literal 16 100) = inr (16 * w / 100).
Proof. intros Hw. split; [by apply int_scaled_12|by apply int_scaled_16]. Qed.

Lemma scaled_sizes_are_integer_quotients_witness :
  int_scaled 1024 (literal 12 100) = inr 122 ∧ int_scaled 1024 (literal 16 100) = inr 163.
Proof. apply (scaled_sizes_are_integer_quotients 1024). lia. Defined.

(** Extra X2.  The logo is never pasted on an image that is not RGBA, nor on
    one narrower than 7 pixels (16% of the width is then 0): whatever the
    logo URL serves, the result carries the drawn mark and keeps the pixel
    format of the input. *)
Theorem logo_is_skipped_without_room (cfg : Config) (W : World) (E : engine)
    (s : state) (img : loc) (im : image) :
  heap s !! img = Some im → wf_image im → is_Some (getrgb E (BRAND_PRIMARY cfg)) →
  im_mode im ≠ M_RGBA ∨ width im < 7 →
  ∃ l s' im', add_logo_or_mark cfg W E img s = (inr l, s') ∧
              heap s' !! l = Some im' ∧ mark_drawn cfg E im im' ∧
              im_mode im' = im_mode im.
Proof.
  intros Hl Hwf [ink Hink] Hroom.
  destruct (add_logo_or_mark_run cfg W E img s im ink Hl Hwf Hink) as (im' & Hcase & Hrun).
  eexists _, _, im'. split; [exact Hrun|]. split; [apply lookup_insert_eq|].
  destruct Hcase as [[_ Hp]|Hm].
  - exfalso. destruct Hroom as [Hmode|Hnarrow].
    + apply logo_pasted_shape in Hp as (Hrgba & _). done.
    + destruct Hp as (b & opened & w & ratio & h & scaled & _ & _ & Hw & _ & _ & Hs & _).
      rewrite int_scaled_16 in Hw by apply Hwf. injection Hw as <-.
      unfold resize in Hs.
      assert (16 * width im / 100 < 1).
      { apply Z.div_lt_upper_bound; lia. }
      replace (16 * width im / 100 <? 1) with true in Hs by (symmetry; apply Z.ltb_lt; lia).
      done.
  - split; [done|]. by apply mark_drawn_shape in Hm as (? & _).
Qed.

Lemma logo_is_skipped_without_room_witness :
  ∃ l s' im',
    add_logo_or_mark (Example.branded "https://example.org/logo.png") Example.online
      Example.pillow 1%positive {| heap := {[ 1%positive := Example.card ]}; outbox := [] |}
    = (inr l, s') ∧
    heap s' !! l = Some im' ∧
    mark_drawn (Example.branded "https://example.org/logo.png") Example.pillow Example.card im' ∧
    im_mode im' = M_RGB.
Proof.
  refine (logo_is_skipped_without_room (Example.branded "https://example.org/logo.png")
            Example.online Example.pillow
            {| heap := {[ 1%positive := Example.card ]}; outbox := [] |} 1%positive
            Example.card _ _ _ _).
  - reflexivity.
  - unfold wf_image; simpl; lia.
  - eexists; reflexivity.
  - left. discriminate.
Defined.

(** Extra X3.  Whenever [add_logo_or_mark] returns, the image it returns has
    the pixel format, the width and the height of the image it was given. *)
Theorem add_logo_or_mark_keeps_shape (cfg : Config) (W : World) (E : engine)
    (s s' : state) (img l : loc) (im : image) :
  heap s !! img = Some im → add_logo_or_mark cfg W E img s = (inr l, s') →
  ∃ im', heap s' !! l = Some im' ∧
         im_mode im' = im_mode im ∧ width im' = width im ∧ height im' = height im.
Proof. apply add_logo_or_mark_shape. Qed.

Lemma add_logo_or_mark_keeps_shape_witness :
  ∃ im',
    heap (snd (add_logo_or_mark (Example.branded "https://example.org/logo.png")
                 Example.online Example.pillow 1%positive Example.studio)) !! 2%positive
    = Some im' ∧
    im_mode im' = M_RGBA ∧ width im' = 1024 ∧ height im' = 1024.
Proof.
  refine (add_logo_or_mark_keeps_shape (Example.branded "https://example.org/logo.png")
            Example.online Example.pillow Example.studio _ 1%positive 2%positive
            Example.canvas _ _); reflexivity.
Defined.

(** Extra X4.  [draw.ellipse(..., fill=BRAND_PRIMARY)] is outside both [try]
    blocks: when [BRAND_PRIMARY] is not a colour Pillow knows and no logo
    is pasted (none configured, or it cannot be fetched or decoded),
    [add_logo_or_mark] raises [ValueError]; the image it was given is
    unchanged and nothing is sent. *)
Theorem unknown_brand_colour_raises (cfg : Config) (W : World) (E : engine)
    (s : state) (img : loc) (im : image) :
  heap s !! img = Some im → wf_image im → getrgb E (BRAND_PRIMARY cfg) = None →
  LOGO_URL cfg = "" ∨ requests_get W (LOGO_URL cfg) 10 = None ∨
  (∃ b, requests_get W (LOGO_URL cfg) 10 = Some b ∧ decode E b = None) →
  ∃ s', add_logo_or_mark cfg W E img s = (inl ValueError, s') ∧
        heap s' !! img = Some im ∧ outbox s' = outbox s.
Proof.
  intros Hl Hwf Hink Hfail.
  pose proof (add_logo_or_mark_touches cfg W E img s) as [Hout Hframe].
  assert (Hrun : fst (add_logo_or_mark cfg W E img s) = inl ValueError).
  { unfold add_logo_or_mark, Image_copy. msimpl. rewrite Hl.
    set (l := fresh (dom (heap s))).
    set (s1 := {| heap := <[l := im]> (heap s); outbox := outbox s |}).
    assert (Hl1 : heap s1 !! l = Some im) by apply lookup_insert_eq.
    assert (Hmark : fst (draw_mark cfg E l s1) = inl ValueError).
    { unfold draw_mark, ellipse. msimpl. unfold s1. cbn [heap].
      rewrite !lookup_insert_eq. rewrite int_scaled_12 by apply Hwf.
      unfold ellipse_image. rewrite Hink. done. }
    assert (Hpaste : str_bool (LOGO_URL cfg) = true → ∃ e, paste_logo cfg W E l s1 = (inl e, s1)).
    { intros Hb. destruct (paste_logo_cases cfg W E l s1 im Hl1) as [?|(im' & Hp & _)]; [done|].
      exfalso. destruct Hp as (b & opened & ? & ? & ? & ? & Hget & Hdec & _).
      destruct Hfail as [Hu|[Hn|(b' & Hget' & Hn)]];
        [rewrite Hu in Hb; done|congruence|congruence]. }
    destruct (str_bool (LOGO_URL cfg)).
    - destruct (Hpaste eq_refl) as (e & ->).
      destruct (draw_mark cfg E l s1) as [[?|?] ?]; simpl in *; congruence.
    - destruct (draw_mark cfg E l s1) as [[?|?] ?]; simpl in *; congruence. }
  destruct (add_logo_or_mark cfg W E img s) as [r s'] eqn:Heq. simpl in *. subst r.
  exists s'. split; [done|]. split; [|done].
  rewrite Hframe; [done|]. by eapply fresh_loc_new.
Qed.

Lemma unknown_brand_colour_raises_witness :
  let cfg := load_config (λ key, if String.eqb key "BRAND_PRIMARY" then Some "charcoal" else None) in
  ∃ s', add_logo_or_mark cfg Example.online Example.pillow 1%positive Example.studio
        = (inl ValueError, s') ∧
        heap s' !! 1%positive = Some Example.canvas ∧ outbox s' = outbox Example.studio.
Proof.
  intros cfg.
  refine (unknown_brand_colour_raises cfg Example.online Example.pillow Example.studio
            1%positive Example.canvas _ _ _ _).
  - reflexivity.
  - unfold wf_image; simpl; lia.
  - reflexivity.
  - left. reflexivity.
Defined.

(** Extra X5.  When the default font cannot be loaded or the drawing context
    has no [textsize] (Pillow 10 and later), the second [try] swallows the
    error: without a logo the result is the input with the disc alone, the
    pixels the ellipse covers in the brand primary colour and all others as
    they were; the letters 'pd' are not drawn. *)
Theorem mark_has_no_letters_without_textsize (cfg : Config) (W : World) (E : engine)
    (s : state) (img : loc) (im : image) (ink : pixel) :
  heap s !! img = Some im → wf_image im → getrgb E (BRAND_PRIMARY cfg) = Some ink →
  LOGO_URL cfg = "" →
  textsize E = None ∨ (∃ e, load_default E = inl e) →
  let l := fresh (dom (heap s)) in
  let disc := filled_ellipse E im (mark_box (width im) (height im)) ink in
  add_logo_or_mark cfg W E img s
  = (inr l, {| heap := <[l := disc]> (heap s); outbox := outbox s |}) ∧
  ∀ x y, px disc x y = if covers E (mark_box (width im) (height im)) x y then ink
                       else px im x y.
Proof. apply disc_without_letters. Qed.

Lemma mark_has_no_letters_without_textsize_witness :
  let disc := filled_ellipse Example.pillow Example.canvas (mark_box 1024 1024)
                (Pixel 47 52 53 255) in
  add_logo_or_mark Example.plain Example.online Example.pillow 1%positive Example.studio
  = (inr (fresh (dom (heap Example.studio))),
     {| heap := <[fresh (dom (heap Example.studio)) := disc]> (heap Example.studio);
        outbox := [] |}) ∧
  ∀ x y, px disc x y = if covers Example.pillow (mark_box 1024 1024) x y
                       then Pixel 47 52 53 255 else px Example.canvas x y.
Proof.
  intros disc.
  refine (mark_has_no_letters_without_textsize Example.plain Example.online Example.pillow
            Example.studio 1%positive Example.canvas (Pixel 47 52 53 255) _ _ _ _ _).
  - reflexivity.
  - unfold wf_image; simpl; lia.
  - reflexivity.
  - reflexivity.
  - left. reflexivity.
Defined.

(** Extra X6.  The fallback mark stays in the bottom-right corner: provided
    the rasteriser paints an ellipse inside its bounding box, every pixel
    outside the square of side [2 * r] whose right and bottom edges lie 40
    pixels inside those of the image is what it was in the input (here for
    the mark without letters). *)
Theorem mark_changes_only_its_box (cfg : Config) (W : World) (E : engine)
    (s : state) (img : loc) (im : image) :
  heap s !! img = Some im → wf_image im → is_Some (getrgb E (BRAND_PRIMARY cfg)) →
  LOGO_URL cfg = "" →
  textsize E = None ∨ (∃ e, load_default E = inl e) →
  let r := 12 * width im / 100 in
  (∀ x y, covers E (mark_box (width im) (height im)) x y = true →
          width im - 40 - 2 * r ≤ x ≤ width im - 40 ∧
          height im - 40 - 2 * r ≤ y ≤ height im - 40) →
  ∃ l s' im',
    add_logo_or_mark cfg W E img s = (inr l, s') ∧ heap s' !! l = Some im' ∧
    ∀ x y, x < width im - 40 - 2 * r ∨ width im - 40 < x ∨
           y < height im - 40 - 2 * r ∨ height im - 40 < y →
           px im' x y = px im x y.
Proof.
  intros Hl Hwf [ink Hink] Hurl Htext r Hcov.
  destruct (disc_without_letters cfg W E s img im ink Hl Hwf Hink Hurl Htext) as [Hrun _].
  eexists _, _, _. split; [exact Hrun|]. split; [apply lookup_insert_eq|].
  intros x y Hout. cbn [px filled_ellipse].
  destruct (covers E (mark_box (width im) (height im)) x y) eqn:Hc; [|done].
  apply Hcov in Hc. fold r in Hc. lia.
Qed.

Lemma mark_changes_only_its_box_witness :
  ∃ l s' im',
    add_logo_or_mark Example.plain Example.online Example.pillow 1%positive Example.studio
    = (inr l, s') ∧ heap s' !! l = Some im' ∧
    ∀ x y, x < 1024 - 40 - 2 * 122 ∨ 1024 - 40 < x ∨
           y < 1024 - 40 - 2 * 122 ∨ 1024 - 40 < y →
           px im' x y = px Example.canvas x y.
Proof.
  refine (mark_changes_only_its_box Example.plain Example.online Example.pillow
            Example.studio 1%positive Example.canvas _ _ _ _ _ _).
  - reflexivity.
  - unfold wf_image; simpl; lia.
  - eexists; reflexivity.
  - reflexivity.
  - left. reflexivity.
  - intros x y. apply (inscribed_in_box 740 740 984 984 x y); lia.
Defined.

(** Extra X7.  The logo keeps its proportions to within one row.  When the
    logo is fetched and decoded, has more than one row's worth of height
    after scaling ([width < height * w]) and the base image is RGBA, the
    image returned is the base with the logo blended in over a rectangle of
    [w = 16 * width / 100] columns and [h] rows ending 40 pixels inside the
    right and bottom edges, where [h = int(logo.height * (w / logo.width))]
    satisfies [h * logo.width ≤ logo.height * w ≤ (h + 1) * logo.width]:
    the exact proportional height rounded down, or one less when the
    proportion is a whole number.  Sizes are those of Pillow images, with
    [logo.height * w] below [2 ^ 48]. *)
Theorem logo_keeps_its_proportions (cfg : Config) (W : World) (E : engine)
    (s : state) (img : loc) (im : image) (b : bytes) (opened : image) :
  str_bool (LOGO_URL cfg) = true →
  requests_get W (LOGO_URL cfg) 10 = Some b → decode E b = Some opened →
  heap s !! img = Some im → wf_image im → im_mode im = M_RGBA →
  0 < width opened < 2 ^ 31 → 0 ≤ height opened < 2 ^ 31 →
  let w := 16 * width im / 100 in
  height opened * w < 2 ^ 48 →
  width opened < height opened * w →
  (dest_must_be_nonnegative E = true →
   0 ≤ width im - w - 40 ∧ 0 ≤ height im - height opened * w / width opened - 40) →
  ∃ l s' im' h,
    add_logo_or_mark cfg W E img s = (inr l, s') ∧ heap s' !! l = Some im' ∧
    1 ≤ h ∧ h * width opened ≤ height opened * w ≤ (h + 1) * width opened ∧
    ∀ x y,
      px im' x y =
      if (width im - 40 - w <=? x) && (x <? width im - 40) &&
         (height im - 40 - h <=? y) && (y <? height im - 40)
      then blend E (px im x y)
             (resample E (convert E M_RGBA opened) w h
                (x - (width im - 40 - w)) (y - (height im - 40 - h)))
      else px im x y.
Proof.
  intros Hurl Hget Hdec Hl Hwf Hmode Hlw Hlh w Hsmall Hrow Hdest.
  assert (Hw : 0 ≤ w < 2 ^ 31).
  { destruct Hwf as [Hwf _]. unfold w. split; [apply Z.div_pos; lia|].
    apply Z.div_lt_upper_bound; lia. }
  assert (Hw1 : 1 ≤ w) by nia.
  assert (Hlh1 : 1 ≤ height opened) by nia.
  destruct (scaled_height_positive (height opened) w (width opened))
    as (ratio & h & Hr & Hh & Hlo & Hhi); [lia|lia|lia|done|].
  assert (Hh1 : 1 ≤ h) by nia.
  assert (Hhq : h ≤ height opened * w / width opened)
    by (apply Z.div_le_lower_bound; lia).
  unfold add_logo_or_mark, Image_copy, paste_logo, alpha_composite, open. msimpl.
  rewrite Hl, Hurl, Hget, Hdec. cbn [heap].
  set (l := fresh (dom (heap s))). rewrite !lookup_insert_eq.
  rewrite int_scaled_16 by apply Hwf. fold w.
  change (width (convert E M_RGBA opened)) with (width opened).
  change (height (convert E M_RGBA opened)) with (height opened).
  rewrite Hr, Hh. unfold resize.
  replace ((w <? 1) || (h <? 1)) with false
    by (symmetry; apply orb_false_iff; split; apply Z.ltb_ge; lia).
  cbn [height width]. unfold alpha_composite_image. cbn [fst snd im_mode].
  replace (dest_must_be_nonnegative E && _) with false.
  2:{ symmetry. destruct (dest_must_be_nonnegative E); [|done]. simpl.
      apply Z.ltb_ge. destruct Hdest; [done|]. lia. }
  rewrite Hmode. cbn [bool_decide decide_rel andb].
  rewrite !bool_decide_eq_true_2 by done. cbn [andb].
  eexists _, _, _, h. split; [reflexivity|]. cbn [heap].
  rewrite insert_insert_eq, lookup_insert_eq.
  split; [reflexivity|]. split; [done|]. split; [done|].
  intros x y. cbn [px]. unfold composited. cbn [width height px].
  replace (width im - w - 40 + w) with (width im - 40) by lia.
  replace (height im - h - 40 + h) with (height im - 40) by lia.
  replace (width im - w - 40) with (width im - 40 - w) by lia.
  replace (height im - h - 40) with (height im - 40 - h) by lia.
  reflexivity.
Qed.

Lemma logo_keeps_its_proportions_witness :
  ∃ l s' im' h,
    add_logo_or_mark (Example.branded "https://example.org/logo.png") Example.online
      Example.pillow 1%positive Example.studio = (inr l, s') ∧
    heap s' !! l = Some im' ∧
    1 ≤ h ∧ h * 400 ≤ 200 * 163 ≤ (h + 1) * 400 ∧
    ∀ x y,
      px im' x y =
      if (1024 - 40 - 163 <=? x) && (x <? 1024 - 40) &&
         (1024 - 40 - h <=? y) && (y <? 1024 - 40)
      then blend Example.pillow (px Example.canvas x y)
             (resample Example.pillow (convert Example.pillow M_RGBA Example.logo) 163 h
                (x - (1024 - 40 - 163)) (y - (1024 - 40 - h)))
      else px Example.canvas x y.
Proof.
  refine (logo_keeps_its_proportions
            (Example.branded "https://example.org/logo.png") Example.online Example.pillow
            Example.studio 1%positive Example.canvas "logo" Example.logo
            _ _ _ _ _ _ _ _ _ _ _); try reflexivity.
  - unfold wf_image; simpl; lia.
  - simpl; lia.
  - simpl; lia.
  - intros H. discriminate H.
Defined.

(** Extra X8.  The row lost to rounding is real.  On an image 1024 pixels
    wide a logo of 7987 x 49 pixels is in exact proportion 163 x 1, but
    [163 / 7987] rounds below [1 / 49] and [int(49 * ratio)] is 0: [resize]
    is asked for 163 x 0 pixels and refuses. *)
Theorem exact_proportion_can_lose_a_row :
  int_scaled 1024 (literal 16 100) = inr 163 ∧
  49 * 163 / 7987 = 1 ∧ (49 * 163) mod 7987 = 0 ∧
  (ratio ← int_truediv 163 7987; int_scaled 49 ratio) = inr 0 ∧
  ∀ E im, resize E im (163, 0) = inl ValueError.
Proof.
  split; [vm_compute; reflexivity|]. split; [reflexivity|]. split; [reflexivity|].
  split; [vm_compute; reflexivity|]. intros E im. reflexivity.
Qed.

(** ** The generation clients *)

(** Extra X9.  When the reply to the chat request has the expected shape,
    [openai_chat] returns its content with the white space at both ends
    removed: the text neither begins nor ends with a white-space character. *)
Theorem openai_chat_returns_trimmed_content (cfg : Config) (C : Codecs) (W : World)
    (prompt model : string) (members m1 m2 : list (string * json)) (rest : list json)
    (content : string) :
  fetch_json C W (chat_request cfg prompt model) 60 = inr (JObj members) →
  assoc "choices" members = Some (JArr (JObj m1 :: rest)) →
  assoc "message" m1 = Some (JObj m2) →
  assoc "content" m2 = Some (JStr content) →
  openai_chat cfg C W prompt model = inr (strip content) ∧
  ¬ starts_with_space (strip content) ∧ ¬ ends_with_space (strip content).
Proof.
  intros Hf Hc Hm Hcontent. split; [|apply strip_is_clean].
  unfold openai_chat, chat_content. msimpl. rewrite Hf.
  cbn [getitem_str]. rewrite Hc. msimpl. cbn [getitem_0 head]. msimpl.
  cbn [getitem_str]. rewrite Hm. msimpl. cbn [getitem_str]. rewrite Hcontent. reflexivity.
Qed.

Lemma openai_chat_returns_trimmed_content_witness :
  openai_chat Example.plain Example.codecs Example.online "a caption" "gpt-4o-mini"
  = inr (strip "Ship something small today. practical > perfect.") ∧
  ¬ starts_with_space (strip "Ship something small today. practical > perfect.") ∧
  ¬ ends_with_space (strip "Ship something small today. practical > perfect.").
Proof.
  refine (openai_chat_returns_trimmed_content Example.plain Example.codecs Example.online
            "a caption" "gpt-4o-mini" _ _ _ [] _ _ _ _ _); reflexivity.
Defined.

(** Extra X10.  What [openai_chat] raises on a reply that is valid JSON of the
    wrong shape: [KeyError] when "choices" or "content" is missing,
    [IndexError] when "choices" is an empty list, [KeyError] when it is an
    object, [TypeError] when the document is a list, and [AttributeError]
    when the content is [null]. *)
Theorem openai_chat_rejects_malformed_replies (cfg : Config) (C : Codecs) (W : World)
    (prompt model : string) (out : json) :
  fetch_json C W (chat_request cfg prompt model) 60 = inr out →
  (∀ members, out = JObj members → assoc "choices" members = None →
     openai_chat cfg C W prompt model = inl (KeyError "choices")) ∧
  (∀ members, out = JObj members → assoc "choices" members = Some (JArr []) →
     openai_chat cfg C W prompt model = inl IndexError) ∧
  (∀ members inner, out = JObj members → assoc "choices" members = Some (JObj inner) →
     openai_chat cfg C W prompt model = inl (KeyError "0")) ∧
  (∀ items, out = JArr items → openai_chat cfg C W prompt model = inl TypeError) ∧
  (∀ members m1 m2 rest, out = JObj members →
     assoc "choices" members = Some (JArr (JObj m1 :: rest)) →
     assoc "message" m1 = Some (JObj m2) →
     (assoc "content" m2 = None →
      openai_chat cfg C W prompt model = inl (KeyError "content")) ∧
     (assoc "content" m2 = Some JNull →
      openai_chat cfg C W prompt model = inl AttributeError)).
Proof.
  intros Hf. unfold openai_chat, chat_content. msimpl. rewrite Hf. split_and!.
  - intros members -> Hc. cbn [getitem_str]. by rewrite Hc.
  - intros members -> Hc. cbn [getitem_str]. by rewrite Hc.
  - intros members inner -> Hc. cbn [getitem_str]. by rewrite Hc.
  - intros items ->. done.
  - intros members m1 m2 rest -> Hc Hm. cbn [getitem_str]. rewrite Hc. msimpl.
    cbn [getitem_0 head]. msimpl. cbn [getitem_str]. rewrite Hm. msimpl. cbn [getitem_str].
    split; intros ->; done.
Qed.

Lemma openai_chat_rejects_malformed_replies_witness :
  openai_chat Example.plain Example.codecs Example.chat_malformed "a caption" "gpt-4o-mini"
  = inl (KeyError "choices").
Proof.
  refine (proj1 (openai_chat_rejects_malformed_replies Example.plain Example.codecs
                   Example.chat_malformed "a caption" "gpt-4o-mini" (JObj []) _) [] _ _);
    reflexivity.
Defined.

(** Extra X11.  [openai_image] sends nothing to the chat and changes no
    existing image object.  When it fails the store is as before; when it
    returns, the object returned is a new one and holds the image decoded
    from the base64 text under ["data"][0]["b64_json"] of the reply,
    converted to RGBA. *)
Theorem openai_image_creates_a_new_object (cfg : Config) (C : Codecs) (W : World)
    (E : engine) (prompt size : string) (s : state) :
  let run := openai_image cfg C W E prompt size s in
  outbox (snd run) = outbox s ∧
  (∀ l x, heap s !! l = Some x → heap (snd run) !! l = Some x) ∧
  match fst run with
  | inl _ => snd run = s
  | inr l =>
      heap s !! l = None ∧
      ∃ out b64 payload im0,
        fetch_json C W (image_request cfg prompt size) 120 = inr out ∧
        image_b64 out = inr (JStr b64) ∧
        b64decode C b64 = Some payload ∧ decode E payload = Some im0 ∧
        heap (snd run) !! l = Some (convert E M_RGBA im0)
  end.
Proof.
  intros run. subst run. rewrite openai_image_unfold.
  destruct (generated_image cfg C W E prompt size) as [e|im] eqn:Hg; cbn [fst snd heap outbox].
  - done.
  - split; [done|]. split.
    + intros l x Hl. rewrite lookup_insert_ne; [done|]. intros <-.
      by eapply fresh_loc_new.
    + split.
      * apply not_elem_of_dom. apply is_fresh.
      * apply generated_image_payload in Hg
          as (out & b64 & payload & im0 & Hf & Hv & _ & Hb & Hd & ->).
        exists out, b64, payload, im0. split_and!; try done. apply lookup_insert_eq.
Qed.



(** ** Configuration and commands *)

(** Extra X13.  [LOGO_URL] is stripped when it is read: a value made of
    white-space characters only (spaces, tabs, line breaks, no-break and
    ideographic spaces and the other code points of [str.isspace]) is the
    same as no value.  The setting is then the empty string and
    [add_logo_or_mark] does not depend on the network. *)
Theorem blank_logo_url_is_unset (env : string → option string) (W W' : World)
    (E : engine) (img : loc) (s : state) :
  env "LOGO_URL" = None ∨ (∃ v, env "LOGO_URL" = Some v ∧ blank v) →
  LOGO_URL (load_config env) = "" ∧
  add_logo_or_mark (load_config env) W E img s
  = add_logo_or_mark (load_config env) W' E img s.
Proof.
  intros Henv.
  assert (Hurl : LOGO_URL (load_config env) = "").
  { cbn [LOGO_URL load_config]. unfold getenv_default.
    destruct Henv as [->|(v & -> & Hv)]; [reflexivity|by apply strip_blank]. }
  split; [done|].
  unfold add_logo_or_mark. rewrite Hurl. reflexivity.
Qed.

Lemma blank_logo_url_is_unset_witness :
  let url := of_byte_codes [32; 9; 194; 160; 227; 128; 128] in
  LOGO_URL (Example.branded url) = "" ∧
  add_logo_or_mark (Example.branded url) Example.online Example.pillow 1%positive
    Example.studio
  = add_logo_or_mark (Example.branded url) Example.image_timeout Example.pillow 1%positive
      Example.studio.
Proof.
  intros url.
  refine (blank_logo_url_is_unset (Example.environ (Some url)) Example.online
            Example.image_timeout Example.pillow 1%positive Example.studio _).
  right. exists url. split; [reflexivity|].
  exists [[32]; [9]; [194; 160]; [227; 128; 128]]. split; [|reflexivity].
  repeat constructor; apply (bool_decide_unpack _); by vm_compute.
Defined.

(** Extra X14.  [main] leaves with the message "Missing TELEGRAM_BOT_TOKEN or
    OPENAI_API_KEY in .env" exactly when one of the two settings is unset
    or empty; otherwise it registers the five commands start, idea, caption,
    post and style, in this order. *)
Theorem main_needs_both_tokens (cfg : Config) (C : Codecs) (W : World) (E : engine) :
  match main cfg C W E with
  | inl message =>
      message = "Missing TELEGRAM_BOT_TOKEN or OPENAI_API_KEY in .env" ∧
      (TG_TOKEN cfg = None ∨ TG_TOKEN cfg = Some "" ∨
       OPENAI_API_KEY cfg = None ∨ OPENAI_API_KEY cfg = Some "")
  | inr handlers =>
      (∃ t k, TG_TOKEN cfg = Some t ∧ t ≠ "" ∧ OPENAI_API_KEY cfg = Some k ∧ k ≠ "") ∧
      handlers.*1 = ["start"; "idea"; "caption"; "post"; "style"]
  end.
Proof.
  unfold main, optional_bool.
  destruct (TG_TOKEN cfg) as [[|a t]|]; cbn [str_bool negb orb]; try (split; [done|tauto]).
  destruct (OPENAI_API_KEY cfg) as [[|b k]|]; cbn [str_bool negb orb];
    try (split; [done|tauto]).
  split; [|done]. eexists _, _. split_and!; done.
Qed.

(** Extra X15.  The check in [main] keeps the f-string of the Authorization
    header from rendering [None]: once the commands are registered, the key
    is set and non-empty, and the [Request] objects of the chat and of the
    image client hold, under the names [Request] capitalises them to,
    "Authorization" with "Bearer <key>" and "Content-type" with
    "application/json", and nothing else.  (What urllib adds when it sends
    the request is not part of the object.) *)
Theorem requests_carry_the_configured_key (cfg : Config) (C : Codecs) (W : World)
    (E : engine) (handlers : list (string * command)) :
  main cfg C W E = inr handlers →
  ∃ key, OPENAI_API_KEY cfg = Some key ∧ key ≠ "" ∧
    ∀ prompt model size,
      req_headers (chat_request cfg prompt model)
      = [("Authorization", "Bearer " +:+ key); ("Content-type", "application/json")] ∧
      req_headers (image_request cfg prompt size)
      = [("Authorization", "Bearer " +:+ key); ("Content-type", "application/json")].
Proof.
  unfold main, optional_bool.
  destruct (TG_TOKEN cfg) as [[|a t]|]; cbn [str_bool negb orb]; try done.
  destruct (OPENAI_API_KEY cfg) as [[|b k]|] eqn:Hkey; cbn [str_bool negb orb]; try done.
  intros _. exists (String b k). split; [done|]. split; [done|].
  intros prompt model size. unfold chat_request, image_request, openai_headers.
  rewrite Hkey. split; reflexivity.
Qed.

Lemma requests_carry_the_configured_key_witness :
  ∃ key, OPENAI_API_KEY Example.plain = Some key ∧ key ≠ "" ∧
    ∀ prompt model size,
      req_headers (chat_request Example.plain prompt model)
      = [("Authorization", "Bearer " +:+ key); ("Content-type", "application/json")] ∧
      req_headers (image_request Example.plain prompt size)
      = [("Authorization", "Bearer " +:+ key); ("Content-type", "application/json")].
Proof.
  exact (requests_carry_the_configured_key Example.plain Example.codecs Example.online
           Example.pillow _ eq_refl).
Defined.

(** Extra X16.  Every command [main] registers sends at most one message per
    call: none when it raises, exactly one when it returns.  No command
    changes or removes an image object that existed before the call. *)
Theorem every_command_replies_at_most_once (cfg : Config) (C : Codecs) (W : World)
    (E : engine) (handlers : list (string * command)) (name : string) (h : command)
    (args : list string) (s : state) :
  main cfg C W E = inr handlers → (name, h) ∈ handlers →
  let run := h args s in
  (∀ l x, heap s !! l = Some x → heap (snd run) !! l = Some x) ∧
  match fst run with
  | inl _ => outbox (snd run) = outbox s
  | inr _ => ∃ m, outbox (snd run) = outbox s ++ [m]
  end.
Proof.
  unfold main. destruct (_ || _); [done|]. intros [= <-] Hin.
  repeat (apply elem_of_cons in Hin as [[= -> ->]|Hin]).
  - apply reply_text_once.
  - apply idea_once.
  - apply caption_once.
  - apply post_once.
  - apply reply_text_once.
  - by apply elem_of_nil in Hin.
Qed.

Lemma every_command_replies_at_most_once_witness :
  let run := post Example.plain Example.codecs Example.image_timeout Example.pillow
               ["plaintext.daily"] Example.studio in
  (∀ l x, heap Example.studio !! l = Some x → heap (snd run) !! l = Some x) ∧
  match fst run with
  | inl _ => outbox (snd run) = outbox Example.studio
  | inr _ => ∃ m, outbox (snd run) = outbox Example.studio ++ [m]
  end.
Proof.
  refine (every_command_replies_at_most_once Example.plain Example.codecs
            Example.image_timeout Example.pillow _ "post"
            (post Example.plain Example.codecs Example.image_timeout Example.pillow)
            ["plaintext.daily"] Example.studio eq_refl _).
  do 3 apply list_elem_of_further. apply list_elem_of_here.
Defined.

(** Extra X17.  [BRAND_PRIMARY] and [BRAND_CREAM] from the environment are
    what the style command reports, in one message together with the
    hashtags; the image prompt of [post] does not follow them: it names the
    built-in palette #F4EFE2 and #2F3435 whatever the configuration. *)
Theorem brand_colours_reach_style_not_prompts (env : string → option string)
    (primary cream : string) (args : list string) (s : state) :
  env "BRAND_PRIMARY" = Some primary → env "BRAND_CREAM" = Some cream →
  let cfg := load_config env in
  (∃ spec, style cfg s = (inr (), {| heap := heap s; outbox := outbox s ++ [Text spec] |}) ∧
           contains spec ("Primary: " +:+ primary +:+ LF) ∧
           contains spec ("Cream: " +:+ cream +:+ LF) ∧
           contains spec ("Hashtags: " +:+ HASHTAGS)) ∧
  contains (post_img_prompt (post_topic args)) "Warm cream background (#F4EFE2)" ∧
  contains (post_img_prompt (post_topic args)) "charcoal text (#2F3435)".
Proof.
  intros Hp Hc cfg. split.
  - exists (style_spec cfg). split; [done|].
    unfold style_spec, cfg. cbn [BRAND_PRIMARY BRAND_CREAM load_config].
    unfold getenv_default. rewrite Hp, Hc. split_and!.
    + exists ("Brand quick-specs" +:+ LF). eexists.
      rewrite !str_append_assoc. reflexivity.
    + exists ("Brand quick-specs" +:+ LF +:+ "Primary: " +:+ primary +:+ LF). eexists.
      rewrite !str_append_assoc. reflexivity.
    + exists ("Brand quick-specs" +:+ LF +:+ "Primary: " +:+ primary +:+ LF +:+
              "Cream: " +:+ cream +:+ LF +:+
              "Type vibe: monospaced, generous tracking, lowercase" +:+ LF +:+
              "Imagery: minimal cards, whitespace, subtle grain, small 'pd' roundel" +:+ LF),
             "".
      rewrite !str_append_assoc. reflexivity.
  - split.
    + exists "Minimal, type-forward square card. ". eexists. reflexivity.
    + exists "Minimal, type-forward square card. Warm cream background (#F4EFE2), ".
      eexists. reflexivity.
Qed.

Lemma brand_colours_reach_style_not_prompts_witness :
  let cfg := load_config (λ key, if String.eqb key "BRAND_PRIMARY" then Some "#101010"
                                 else if String.eqb key "BRAND_CREAM" then Some "#FFFFF0"
                                 else None) in
  (∃ spec, style cfg Example.studio
           = (inr (), {| heap := heap Example.studio;
                         outbox := outbox Example.studio ++ [Text spec] |}) ∧
           contains spec ("Primary: " +:+ "#101010" +:+ LF) ∧
           contains spec ("Cream: " +:+ "#FFFFF0" +:+ LF) ∧
           contains spec ("Hashtags: " +:+ HASHTAGS)) ∧
  contains (post_img_prompt (post_topic ["ship"; "daily"])) "Warm cream background (#F4EFE2)" ∧
  contains (post_img_prompt (post_topic ["ship"; "daily"])) "charcoal text (#2F3435)".
Proof.
  exact (brand_colours_reach_style_not_prompts _ "#101010" "#FFFFF0" ["ship"; "daily"]
           Example.studio eq_refl eq_refl).
Defined.
